(** * The Isengard build cache ([isengard2/_db.py]) over a model of sqlite3

    The Python module keeps three tables in one SQLite file and talks to
    them through ten SQL strings.  Each SQL string is embedded as a function
    on the tables it names, the exceptions are an inductive type,
    [with con:] is a commit-or-rollback combinator, and the functions of the
    module are written over these in the order of the source.  The file
    behind the path, the open connections and the failures of the storage
    engine and of the file system are explicit, so that
    [init_or_reset_db] and [DB.connect] can be followed on every exit
    path. *)

From Stdlib Require Import ZArith.
From Stdlib.Strings Require Import Byte.
From stdpp Require Import base tactics decidable option numbers strings list.

Open Scope Z_scope.

(** ** Values stored in the tables *)

(** Fingerprints are Python [bytes]. *)
Definition bytes := list Byte.byte.

(** Modelled from the spec: [ResolvedTargetID] is declared in [_target.py],
    which is not among the sources; the target identifier is an opaque
    string, stored in a TEXT column and compared for equality only. *)
Definition ResolvedTargetID := string.

(** [RuleRunID = NewType("RuleRunID", int)] *)
Definition RuleRunID := Z.

#[global] Instance byte_eq_dec : EqDecision Byte.byte := Byte.byte_eq_dec.

Definition DB_VERSION : Z := 1.
Definition VERSION_MAGIC_NUMBER : Z := 76388.

(** ** Exceptions *)

(** Modelled from the spec: the class [IsengardDBError] is declared in
    [_exceptions.py], which is not among the sources; it is the only kind
    of error that the store reports as its own, and it carries its cause.
    The three places where [init_or_reset_db] raises it are told apart
    here the way its three messages tell them apart. *)
Inductive db_error_stage := CannotOpen | CannotDelete | CannotRecreate.

Inductive exn :=
  | OperationalError            (* sqlite3: no such table, busy, I/O, full, ... *)
  | IntegrityError              (* sqlite3: UNIQUE / NOT NULL failed *)
  | DatabaseError               (* sqlite3: file is not a database, corrupt *)
  | TypeError                   (* unpacking or indexing [None] *)
  | FileNotFoundError
  | PermissionError             (* any other [OSError] of [Path.unlink] *)
  | ProgrammingError            (* sqlite3: operation on a closed connection *)
  | IsengardDBError (stage : db_error_stage) (cause : exn).

(** [except OperationalError]: of the constructors above only the first is an
    instance of that class. *)
Definition is_OperationalError (e : exn) : bool :=
  match e with OperationalError => true | _ => false end.

Definition is_FileNotFoundError (e : exn) : bool :=
  match e with FileNotFoundError => true | _ => false end.

Definition is_IsengardDBError (e : exn) : bool :=
  match e with IsengardDBError _ _ => true | _ => false end.

Inductive result (A : Type) :=
  | Ok (a : A)
  | Raise (e : exn).
Arguments Ok {A} a.
Arguments Raise {A} e.

(** ** Tables *)

Record version_row := { v_magic : Z; v_value : Z }.
Record rule_run_row := { rr_id : Z; rr_fingerprint : bytes }.
Record target_output_row :=
  { to_id : Z; to_run : Z; to_target : ResolvedTargetID;
    to_fingerprint : bytes }.

(** A table that was never created is [None]. *)
Record database :=
  { version : option (list version_row);
    rule_run : option (list rule_run_row);
    target_output : option (list target_output_row) }.

Definition empty_database : database :=
  {| version := None; rule_run := None; target_output := None |}.

Definition set_version (t : list version_row) (db : database) : database :=
  {| version := Some t; rule_run := rule_run db;
     target_output := target_output db |}.
Definition set_rule_run (t : list rule_run_row) (db : database) : database :=
  {| version := version db; rule_run := Some t;
     target_output := target_output db |}.
Definition set_target_output (t : list target_output_row) (db : database)
  : database :=
  {| version := version db; rule_run := rule_run db;
     target_output := Some t |}.

(** [_id INTEGER PRIMARY KEY] without AUTOINCREMENT: a row inserted without
    an id gets 1 in an empty table and otherwise one more than the largest
    id in use.  (At the largest 64-bit id SQLite looks for an unused id at
    random instead; the ids stay in [Z] here and that case is not
    modelled.) *)
Definition next_rowid (ids : list Z) : Z :=
  match ids with
  | [] => 1
  | i :: rest => foldr Z.max i rest + 1
  end.

(** ** SQL statements

    A statement either fails as a whole, leaving the tables alone, or
    returns its rows together with the tables after it. *)
Definition sql (A : Type) := database → result (A * database).

Definition sql_ret {A} (a : A) : sql A := λ db, Ok (a, db).
Definition sql_raise {A} (e : exn) : sql A := λ _, Raise e.
Definition sql_bind {A B} (c : sql A) (k : A → sql B) : sql B :=
  λ db, match c db with
        | Ok (a, db') => k a db'
        | Raise e => Raise e
        end.

Notation "'let*' x ':=' c 'in' k" := (sql_bind c (λ x, k))
  (at level 10, x pattern, c at level 100, k at level 200).

(** [CREATE TABLE IF NOT EXISTS version(...)] and its two siblings. *)
Definition SQL_CREATE_VERSION_TABLE : sql () := λ db,
  match version db with
  | None => Ok ((), set_version [] db)
  | Some _ => Ok ((), db)
  end.
Definition SQL_CREATE_RULE_RUN_TABLE : sql () := λ db,
  match rule_run db with
  | None => Ok ((), set_rule_run [] db)
  | Some _ => Ok ((), db)
  end.
Definition SQL_CREATE_TARGET_OUTPUT_TABLE : sql () := λ db,
  match target_output db with
  | None => Ok ((), set_target_output [] db)
  | Some _ => Ok ((), db)
  end.

(** [INSERT INTO version(value) VALUES(DB_VERSION)]: [magic] takes its
    default and is UNIQUE. *)
Definition SQL_INIT_VERSION_ROW : sql () := λ db,
  match version db with
  | None => Raise OperationalError
  | Some rows =>
      if decide (VERSION_MAGIC_NUMBER ∈ v_magic <$> rows)
      then Raise IntegrityError
      else Ok ((), set_version
                     (rows ++ [{| v_magic := VERSION_MAGIC_NUMBER;
                                  v_value := DB_VERSION |}]) db)
  end.

(** [SELECT value FROM version WHERE magic = VERSION_MAGIC_NUMBER] *)
Definition SQL_FETCH_VERSION_ROW : sql (list Z) := λ db,
  match version db with
  | None => Raise OperationalError
  | Some rows =>
      Ok (v_value <$> filter (λ r, v_magic r = VERSION_MAGIC_NUMBER) rows, db)
  end.

(** [SELECT _id FROM rule_run WHERE fingerprint = ?] *)
Definition SQL_FETCH_RULE_RUN (f : bytes) : sql (list Z) := λ db,
  match rule_run db with
  | None => Raise OperationalError
  | Some rows =>
      Ok (rr_id <$> filter (λ r, rr_fingerprint r = f) rows, db)
  end.

(** [INSERT INTO rule_run(fingerprint) VALUES(?)
     ON CONFLICT(fingerprint) DO UPDATE SET fingerprint = excluded.fingerprint] *)
Definition SQL_UPDATE_RULE_RUN (f : bytes) : sql () := λ db,
  match rule_run db with
  | None => Raise OperationalError
  | Some rows =>
      if decide (f ∈ rr_fingerprint <$> rows)
      then Ok ((), set_rule_run
                     ((λ r, if decide (rr_fingerprint r = f)
                            then {| rr_id := rr_id r; rr_fingerprint := f |}
                            else r) <$> rows) db)
      else Ok ((), set_rule_run
                     (rows ++ [{| rr_id := next_rowid (rr_id <$> rows);
                                  rr_fingerprint := f |}]) db)
  end.

(** [DELETE FROM target_output WHERE run = ?] *)
Definition SQL_DELETE_TARGET_OUTPUTS (run : Z) : sql () := λ db,
  match target_output db with
  | None => Raise OperationalError
  | Some rows => Ok ((), set_target_output (filter (λ r, to_run r ≠ run) rows) db)
  end.

(** [INSERT INTO target_output(run, target, fingerprint) VALUES(?, ?, ?)]
    under [UNIQUE(run, target)]. *)
Definition SQL_INSERT_TARGET_OUTPUT
    (p : Z * ResolvedTargetID * bytes) : sql () := λ db,
  let '(run, target, fp) := p in
  match target_output db with
  | None => Raise OperationalError
  | Some rows =>
      if decide ((run, target) ∈ (λ r, (to_run r, to_target r)) <$> rows)
      then Raise IntegrityError
      else Ok ((), set_target_output
                     (rows ++ [{| to_id := next_rowid (to_id <$> rows);
                                  to_run := run; to_target := target;
                                  to_fingerprint := fp |}]) db)
  end.

(** [SELECT fingerprint FROM target_output WHERE run = ? AND target = ?] *)
Definition SQL_FETCH_TARGET_OUTPUT (run : Z) (target : ResolvedTargetID)
  : sql (list bytes) := λ db,
  match target_output db with
  | None => Raise OperationalError
  | Some rows =>
      Ok (to_fingerprint <$>
            filter (λ r, to_run r = run ∧ to_target r = target) rows, db)
  end.

(** ** Cursor and connection operations *)

(** [cur.executemany(stmt, params)]: one execution per parameter tuple, in
    order, stopping at the first that raises. *)
Fixpoint executemany {P} (stmt : P → sql ()) (params : list P) : sql () :=
  match params with
  | [] => sql_ret ()
  | p :: rest => let* _ := stmt p in executemany stmt rest
  end.

(** [.fetchone()]: the first row of the result, or [None]. *)
Definition fetchone {A} (rows : list A) : option A := head rows.

(** [with self.con: body]: what the body wrote is committed when it returns
    and rolled back when it raises; the exception is re-raised. *)
Definition with_con {A} (body : sql A) (db : database) : result A * database :=
  match body db with
  | Ok (a, db') => (Ok a, db')
  | Raise e => (Raise e, db)
  end.

(** A query run outside any [with]: it reads and writes nothing back. *)
Definition query {A} (q : sql A) (db : database) : result A :=
  match q db with
  | Ok (a, _) => Ok a
  | Raise e => Raise e
  end.

(** ** The [DB] class *)

Definition fetch_rule_previous_run (fingerprint : bytes) (db : database)
  : result (option RuleRunID) :=
  match query (SQL_FETCH_RULE_RUN fingerprint) db with
  | Ok rows => Ok (fetchone rows)      (* row[0] if row else None *)
  | Raise e => Raise e
  end.

Definition set_rule_previous_run (fingerprint : bytes)
    (outputs : list (ResolvedTargetID * bytes)) (db : database)
  : result RuleRunID * database :=
  with_con
    (let* _ := SQL_UPDATE_RULE_RUN fingerprint in
     let* rows := SQL_FETCH_RULE_RUN fingerprint in
     match fetchone rows with
     | None => sql_raise TypeError             (* row[0] on None *)
     | Some run_id =>
         let* _ := SQL_DELETE_TARGET_OUTPUTS run_id in
         let* _ := executemany SQL_INSERT_TARGET_OUTPUT
                     ((λ o, (run_id, o.1, o.2)) <$> outputs) in
         sql_ret run_id
     end) db.

Definition fetch_target_output_fingerprint (run_id : RuleRunID)
    (target : ResolvedTargetID) (db : database) : result (option bytes) :=
  match query (SQL_FETCH_TARGET_OUTPUT run_id target) db with
  | Ok rows => Ok (fetchone rows)      (* row[0] if row else None *)
  | Raise e => Raise e
  end.

(** A statement at which the storage engine may fail on its own account
    (the database is locked, the disk is full, ...): [fault] gives the
    index of the failing step and the exception. *)
Definition sql_step {A} (fault : option (nat * exn)) (k : nat)
    (stmt : sql A) : sql A :=
  match fault with
  | Some (i, e) => if decide (i = k) then sql_raise e else stmt
  | None => stmt
  end.

(** [set_rule_previous_run] once more, with such a fault at one of its four
    steps; without fault it is the function above. *)
Definition set_rule_previous_run_under (fault : option (nat * exn))
    (fingerprint : bytes) (outputs : list (ResolvedTargetID * bytes))
    (db : database) : result RuleRunID * database :=
  with_con
    (let* _ := sql_step fault 0 (SQL_UPDATE_RULE_RUN fingerprint) in
     let* rows := sql_step fault 1 (SQL_FETCH_RULE_RUN fingerprint) in
     match fetchone rows with
     | None => sql_raise TypeError
     | Some run_id =>
         let* _ := sql_step fault 2 (SQL_DELETE_TARGET_OUTPUTS run_id) in
         let* _ := sql_step fault 3
                     (executemany SQL_INSERT_TARGET_OUTPUT
                        ((λ o, (run_id, o.1, o.2)) <$> outputs)) in
         sql_ret run_id
     end) db.

(** ** The file behind [path] and the connections to it *)

Inductive file_content :=
  | NotADatabase                  (* bytes that SQLite does not recognise *)
  | Database (db : database).

Definition Connection := nat.

(** [file] is what the path holds ([None]: no such file); [open_cons] are
    the connections opened and not yet closed. *)
Record world :=
  { file : option file_content;
    open_cons : list Connection;
    next_con : Connection }.

Definition io (A : Type) := world → result A * world.

Definition io_ret {A} (a : A) : io A := λ w, (Ok a, w).
Definition io_raise {A} (e : exn) : io A := λ w, (Raise e, w).
Definition io_bind {A B} (c : io A) (k : A → io B) : io B :=
  λ w, match c w with
       | (Ok a, w') => k a w'
       | (Raise e, w') => (Raise e, w')
       end.

Notation "'let/io' x ':=' c 'in' k" := (io_bind c (λ x, k))
  (at level 10, x pattern, c at level 100, k at level 200).

(** [try: c  except ...: handler]: [handler e = None] when no [except]
    clause matches [e]. *)
Definition io_try {A} (c : io A) (handler : exn → option (io A)) : io A :=
  λ w, match c w with
       | (Ok a, w') => (Ok a, w')
       | (Raise e, w') =>
           match handler e with
           | Some h => h w'
           | None => (Raise e, w')
           end
       end.

(** [try: c  finally: f] *)
Definition io_finally {A} (c : io A) (f : io ()) : io A :=
  λ w, match c w with
       | (r, w') =>
           match f w' with
           | (Ok _, w'') => (r, w'')
           | (Raise e, w'') => (Raise e, w'')
           end
       end.

(** What the storage engine and the file system do on their own account:
    an exception raised by the first [sqlite3_connect], by [path.unlink],
    by the second [sqlite3_connect], and by the statement of the given
    index (from 0) among the four that recreate the schema. *)
Record faults :=
  { f_connect : option exn;
    f_unlink : option exn;
    f_reconnect : option exn;
    f_recreate : option (nat * exn) }.

Definition no_faults : faults :=
  {| f_connect := None; f_unlink := None; f_reconnect := None;
     f_recreate := None |}.

(** What a connection finds at the path: a file that does not exist is
    created as an empty database. *)
Definition opened (fl : option file_content) : file_content :=
  match fl with
  | None => Database empty_database
  | Some c => c
  end.

(** [sqlite3.connect(path)]; a file that SQLite cannot read is only found
    out by the first statement. *)
Definition sqlite3_connect (fault : option exn) : io Connection := λ w,
  match fault with
  | Some e => (Raise e, w)
  | None =>
      (Ok (next_con w),
       {| file := Some (opened (file w));
          open_cons := next_con w :: open_cons w;
          next_con := S (next_con w) |})
  end.

(** [con.close()]; closing twice is allowed. *)
Definition con_close (con : Connection) : io () := λ w,
  (Ok (), {| file := file w;
             open_cons := filter (λ c, c ≠ con) (open_cons w);
             next_con := next_con w |}).

(** [con.execute(stmt)] on the file.  In [init_or_reset_db] the statements
    that write are three CREATE TABLE, which the [sqlite3] module runs
    outside any transaction and which are therefore durable as soon as they
    return, and one INSERT, whose transaction the [with con:] block commits
    when it is left; so each statement that returns has written the file. *)
Definition con_execute {A} (con : Connection) (stmt : sql A) : io A := λ w,
  if decide (con ∈ open_cons w) then
    match file w with
    | Some NotADatabase => (Raise DatabaseError, w)
    | Some (Database db) =>
        match stmt db with
        | Ok (a, db') =>
            (Ok a, {| file := Some (Database db'); open_cons := open_cons w;
                      next_con := next_con w |})
        | Raise e => (Raise e, w)
        end
    | None =>
        (* not reached: [sqlite3_connect] has created the file *)
        match stmt empty_database with
        | Ok (a, db') =>
            (Ok a, {| file := Some (Database db'); open_cons := open_cons w;
                      next_con := next_con w |})
        | Raise e => (Raise e, w)
        end
    end
  else (Raise ProgrammingError, w).

(** [path.unlink()].  [FileNotFoundError] is raised when the file is not
    there: either it never was, or (as a fault) somebody else has removed it
    in the meantime. *)
Definition path_unlink (fault : option exn) : io () := λ w,
  match fault with
  | Some e =>
      (Raise e,
       if is_FileNotFoundError e
       then {| file := None; open_cons := open_cons w; next_con := next_con w |}
       else w)
  | None =>
      match file w with
      | None => (Raise FileNotFoundError, w)
      | Some _ => (Ok (), {| file := None; open_cons := open_cons w;
                             next_con := next_con w |})
      end
  end.

(** The [k]-th statement of the recreation, unless the engine fails there. *)
Definition recreate_step (fault : option (nat * exn)) (k : nat)
    (con : Connection) (stmt : sql ()) : io () :=
  match fault with
  | Some (i, e) => if decide (i = k) then io_raise e else con_execute con stmt
  | None => con_execute con stmt
  end.

(** [a, = row]: unpacking the one-column row that [fetchone] returned. *)
Definition unpack1 {A} (row : option A) : io A :=
  match row with
  | Some a => io_ret a
  | None => io_raise TypeError
  end.

(** The body of the second [try] block of [init_or_reset_db]: connect again
    and write the schema. *)
Definition recreate_schema (flt : faults) : io Connection :=
  let/io con := sqlite3_connect (f_reconnect flt) in
  let/io _ := recreate_step (f_recreate flt) 0 con SQL_CREATE_VERSION_TABLE in
  let/io _ := recreate_step (f_recreate flt) 1 con SQL_CREATE_RULE_RUN_TABLE in
  let/io _ := recreate_step (f_recreate flt) 2 con SQL_CREATE_TARGET_OUTPUT_TABLE in
  let/io _ := recreate_step (f_recreate flt) 3 con SQL_INIT_VERSION_ROW in
  io_ret con.

Definition init_or_reset_db (flt : faults) : io Connection :=
  let/io con :=
    io_try (sqlite3_connect (f_connect flt))
      (λ exc, if is_OperationalError exc
              then Some (io_raise (IsengardDBError CannotOpen exc))
              else None) in
  (* Optimistic check *)
  let/io current_db_version :=
    io_try (let/io rows := con_execute con SQL_FETCH_VERSION_ROW in
            unpack1 (fetchone rows))
      (λ exc, if is_OperationalError exc then Some (io_ret (-1)) else None) in
  if decide (current_db_version ≠ DB_VERSION) then
    let/io _ := con_close con in
    let/io _ :=
      io_try (path_unlink (f_unlink flt))
        (λ exc, if is_FileNotFoundError exc then Some (io_ret ())
                else Some (io_raise (IsengardDBError CannotDelete exc))) in
    io_try (recreate_schema flt)
      (λ exc, if is_OperationalError exc
              then Some (io_raise (IsengardDBError CannotRecreate exc))
              else None)
  else io_ret con.

(** [DB.connect]: the body of the caller's [with] block runs between the
    [yield] and the [finally]. *)
Definition connect {A} (flt : faults) (body : Connection → io A) : io A :=
  let/io con := init_or_reset_db flt in
  io_finally (body con) (con_close con).

(** The store that the recreation writes. *)
Definition fresh_database : database :=
  {| version := Some [{| v_magic := VERSION_MAGIC_NUMBER;
                         v_value := DB_VERSION |}];
     rule_run := Some [];
     target_output := Some [] |}.

(** ** What a file holds, as [init_or_reset_db] reads it *)

(** The row that the optimistic check fetches. *)
Definition marker_value (db : database) : result (option Z) :=
  match query SQL_FETCH_VERSION_ROW db with
  | Ok rows => Ok (fetchone rows)
  | Raise e => Raise e
  end.

(** The version marker is absent or incorrect: the marker of the current
    version cannot be read from the file. *)
Definition marker_absent_or_incorrect (c : file_content) : Prop :=
  ∃ db, c = Database db ∧ marker_value db ≠ Ok (Some DB_VERSION).

(** The two readings that the check turns into a reset: there is no
    [version] table to read, or the marker holds another version. *)
Definition version_table_absent_or_marker_incorrect (c : file_content)
  : Prop :=
  ∃ db, c = Database db
        ∧ (version db = None
           ∨ ∃ v, marker_value db = Ok (Some v) ∧ v ≠ DB_VERSION).

(** The deletion went through: [path.unlink] returned or found no file. *)
Definition deletion_passed (flt : faults) : bool :=
  match f_unlink flt with
  | None => true
  | Some e => is_FileNotFoundError e
  end.

(** The exception, if any, that the engine raises during the recreation. *)
Definition recreation_fault (flt : faults) : option exn :=
  match f_reconnect flt with
  | Some e => Some e
  | None =>
      match f_recreate flt with
      | Some (k, e) => if decide (k < 4)%nat then Some e else None
      | None => None
      end
  end.

(** The outcome of opening as the reset contract words it: the caller either
    gets an open connection to a fresh store or an [IsengardDBError]. *)
Definition replaced_or_DBError (flt : faults) (w : world) : Prop :=
  match init_or_reset_db flt w with
  | (Ok con, w') =>
      con ∈ open_cons w' ∧ file w' = Some (Database fresh_database)
  | (Raise e, _) => is_IsengardDBError e = true
  end.

(** ** Names for parts of the two functions *)

(** [row] is the row that [executemany] writes for output [o] of run [r]. *)
Definition row_of (r : Z) (row : target_output_row)
    (o : ResolvedTargetID * bytes) : Prop :=
  to_run row = r ∧ to_target row = o.1 ∧ to_fingerprint row = o.2.

(** The [except OperationalError] clause of the second [try] block. *)
Definition handler_recreate : exn → option (io Connection) :=
  λ exc, if is_OperationalError exc
         then Some (io_raise (IsengardDBError CannotRecreate exc))
         else None.

(** The world in which the reset starts: the first connection [m] made
    and closed again, the file holding [fl]. *)
Definition closed (fl : option file_content) (cons : list Connection)
    (m : Connection) : world :=
  {| file := fl; open_cons := filter (λ c, c ≠ m) (m :: cons);
     next_con := S m |}.

(** ** Some worlds and faults *)

(** No file yet and no connection. *)
Definition no_file : world :=
  {| file := None; open_cons := []; next_con := 0%nat |}.

(** A file that holds [c] and no connection. *)
Definition file_with (c : file_content) : world :=
  {| file := Some c; open_cons := []; next_con := 0%nat |}.

(** The three tables without the marker row. *)
Definition database_without_marker : database :=
  {| version := Some []; rule_run := Some []; target_output := Some [] |}.

(** A store written under schema version 2. *)
Definition database_of_version_2 : database :=
  {| version := Some [{| v_magic := VERSION_MAGIC_NUMBER; v_value := 2 |}];
     rule_run := Some [{| rr_id := 1; rr_fingerprint := [x01] |}];
     target_output := Some [] |}.

(** The engine fails at statement [k] of the recreation with [e]. *)
Definition fault_in_recreation (k : nat) (e : exn) : faults :=
  {| f_connect := None; f_unlink := None; f_reconnect := None;
     f_recreate := Some (k, e) |}.

(** ** Histories of [set_rule_previous_run] calls *)

Definition call := (bytes * list (ResolvedTargetID * bytes))%type.

(** The store after the calls, in order; a call that raises leaves what
    [with self.con:] rolled back to. *)
Fixpoint replay (calls : list call) (db : database) : database :=
  match calls with
  | [] => db
  | c :: rest => replay rest (set_rule_previous_run c.1 c.2 db).2
  end.

(** Some call of the history returned [run_id] and had [target] among its
    outputs. *)
Fixpoint recorded (run_id : RuleRunID) (target : ResolvedTargetID)
    (calls : list call) (db : database) : Prop :=
  match calls with
  | [] => False
  | c :: rest =>
      ((set_rule_previous_run c.1 c.2 db).1 = Ok run_id ∧ target ∈ c.2.*1)
      ∨ recorded run_id target rest (set_rule_previous_run c.1 c.2 db).2
  end.

(** Some call of the history was made with [fingerprint] and returned. *)
Fixpoint run_recorded (fingerprint : bytes) (calls : list call)
    (db : database) : Prop :=
  match calls with
  | [] => False
  | c :: rest =>
      (c.1 = fingerprint ∧ ∃ r, (set_rule_previous_run c.1 c.2 db).1 = Ok r)
      ∨ run_recorded fingerprint rest (set_rule_previous_run c.1 c.2 db).2
  end.

(** Both tables of the [DB] class exist. *)
Definition has_tables (db : database) : Prop :=
  is_Some (rule_run db) ∧ is_Some (target_output db).

(** [_id INTEGER PRIMARY KEY] of [rule_run] holds. *)
Definition rule_run_ids_unique (db : database) : Prop :=
  ∀ rows, rule_run db = Some rows → NoDup (rr_id <$> rows).

(** The run id that steps 1 and 2 of [set_rule_previous_run] resolve to. *)
Definition resolved_run_id (f : bytes) (rows : list rule_run_row) : Z :=
  match head (filter (λ r, rr_fingerprint r = f) rows) with
  | Some row => rr_id row
  | None => next_rowid (rr_id <$> rows)
  end.

(** The [rule_run] table after the upsert. *)
Definition upserted (f : bytes) (rows : list rule_run_row)
  : list rule_run_row :=
  if decide (f ∈ rr_fingerprint <$> rows) then rows
  else rows ++ [{| rr_id := next_rowid (rr_id <$> rows);
                   rr_fingerprint := f |}].

(** The first output recorded for a target in an output sequence. *)
Definition output_of (target : ResolvedTargetID)
    (outputs : list (ResolvedTargetID * bytes)) : option bytes :=
  snd <$> head (filter (λ o, o.1 = target) outputs).

(** A file with the marker of the current version and nothing else. *)
Definition database_with_marker_only : database :=
  {| version := Some [{| v_magic := VERSION_MAGIC_NUMBER;
                         v_value := DB_VERSION |}];
     rule_run := None; target_output := None |}.

(** ** The methods of [DB] on a connection *)

(** A method of the class run through [self.con]: it works on the file that
    the connection is open on, and what it leaves (committed or rolled
    back) is what the file holds afterwards.  A closed connection refuses
    to operate. *)
Definition on_con {A} (con : Connection)
    (method : database → result A * database) : io A := λ w,
  if decide (con ∈ open_cons w) then
    match opened (file w) with
    | NotADatabase => (Raise DatabaseError, w)
    | Database db =>
        ((method db).1,
         {| file := Some (Database (method db).2);
            open_cons := open_cons w; next_con := next_con w |})
    end
  else (Raise ProgrammingError, w).

Definition DB_fetch_rule_previous_run (con : Connection) (fingerprint : bytes)
  : io (option RuleRunID) :=
  on_con con (λ db, (fetch_rule_previous_run fingerprint db, db)).

Definition DB_set_rule_previous_run (con : Connection) (fingerprint : bytes)
    (outputs : list (ResolvedTargetID * bytes)) : io RuleRunID :=
  on_con con (set_rule_previous_run fingerprint outputs).

Definition DB_fetch_target_output_fingerprint (con : Connection)
    (run_id : RuleRunID) (target : ResolvedTargetID) : io (option bytes) :=
  on_con con (λ db, (fetch_target_output_fingerprint run_id target db, db)).

(** ** The constraints of the schema *)

(** What the three CREATE TABLE statements declare for [rule_run] and
    [target_output]: both primary keys, [fingerprint UNIQUE],
    [UNIQUE(run, target)] and [FOREIGN KEY (run) REFERENCES rule_run (_id)]. *)
Definition schema_constraints (db : database) : Prop :=
  ∃ rows tos,
    rule_run db = Some rows ∧ target_output db = Some tos
    ∧ NoDup (rr_id <$> rows)
    ∧ NoDup (rr_fingerprint <$> rows)
    ∧ NoDup (to_id <$> tos)
    ∧ NoDup ((λ r, (to_run r, to_target r)) <$> tos)
    ∧ ∀ row, row ∈ tos → to_run row ∈ rr_id <$> rows.

(** * Properties *)

(** ** Row ids *)

Section Rowid.

Lemma foldr_max_ge (i : Z) (rest : list Z) :
  i ≤ foldr Z.max i rest ∧ ∀ j, j ∈ rest → j ≤ foldr Z.max i rest.
Proof.
  induction rest as [|k rest [IHi IHrest]]; simpl.
  - split; [lia|]. intros j Hj. by apply elem_of_nil in Hj.
  - split; [lia|]. intros j Hj. apply elem_of_cons in Hj as [->|Hj].
    + lia.
    + specialize (IHrest j Hj). lia.
Qed.

Lemma next_rowid_above (ids : list Z) (j : Z) :
  j ∈ ids → j < next_rowid ids.
Proof.
  destruct ids as [|i rest]; intros Hj.
  - by apply elem_of_nil in Hj.
  - unfold next_rowid. destruct (foldr_max_ge i rest) as [Hi Hrest].
    apply elem_of_cons in Hj as [->|Hj]; [lia|].
    specialize (Hrest j Hj). lia.
Qed.

Lemma next_rowid_fresh (ids : list Z) : next_rowid ids ∉ ids.
Proof. intros Hin. apply next_rowid_above in Hin. lia. Qed.

End Rowid.

(** ** Single statements *)

Section Statements.

(** [DO UPDATE SET fingerprint = excluded.fingerprint] writes to the
    conflicting row the value it already holds. *)
Lemma upsert_rewrite_id (f : bytes) (rows : list rule_run_row) :
  (λ r, if decide (rr_fingerprint r = f)
        then {| rr_id := rr_id r; rr_fingerprint := f |}
        else r) <$> rows = rows.
Proof.
  induction rows as [|[i g] rows IH]; [done|].
  rewrite fmap_cons, IH. f_equal. simpl.
  case_decide; [subst|]; done.
Qed.

Lemma SQL_UPDATE_RULE_RUN_spec (f : bytes) (db : database) rows :
  rule_run db = Some rows →
  SQL_UPDATE_RULE_RUN f db = Ok ((), set_rule_run (upserted f rows) db).
Proof.
  intros Hrr. unfold SQL_UPDATE_RULE_RUN, upserted. rewrite Hrr.
  case_decide; [|done]. by rewrite upsert_rewrite_id.
Qed.

Lemma filter_fingerprint_nil (f : bytes) (rows : list rule_run_row) :
  f ∉ rr_fingerprint <$> rows →
  filter (λ r, rr_fingerprint r = f) rows = [].
Proof.
  intros Hf. induction rows as [|r rows IH]; [done|].
  rewrite fmap_cons, not_elem_of_cons in Hf. destruct Hf as [Hne Hf].
  rewrite filter_cons_False by (simpl; congruence). by apply IH.
Qed.

Lemma filter_fingerprint_head (f : bytes) (rows : list rule_run_row) :
  f ∈ rr_fingerprint <$> rows →
  is_Some (head (filter (λ r, rr_fingerprint r = f) rows)).
Proof.
  intros Hf. apply list_elem_of_fmap in Hf as (row & -> & Hrow).
  destruct (filter (λ r, rr_fingerprint r = rr_fingerprint row) rows)
    as [|x l] eqn:Hfil; [|by eexists].
  assert (row ∈ filter (λ r, rr_fingerprint r = rr_fingerprint row) rows)
    as Hin by (by apply list_elem_of_filter).
  rewrite Hfil in Hin. by apply elem_of_nil in Hin.
Qed.

(** After the upsert the SELECT of step 2 finds a row, and its id is
    [resolved_run_id]. *)
Lemma fetch_after_upsert (f : bytes) (rows : list rule_run_row) :
  head (rr_id <$> filter (λ r, rr_fingerprint r = f) (upserted f rows))
  = Some (resolved_run_id f rows).
Proof.
  unfold upserted, resolved_run_id. case_decide as Hf.
  - destruct (filter_fingerprint_head f rows Hf) as [row Hrow].
    destruct (filter _ rows); simplify_eq/=. done.
  - rewrite filter_app, (filter_fingerprint_nil f rows Hf).
    by rewrite filter_cons_True.
Qed.

End Statements.

(** ** The bulk insert of step 4 *)

Section BulkInsert.

Variable r : Z.

Lemma set_target_output_twice t t' db :
  set_target_output t (set_target_output t' db) = set_target_output t db.
Proof. done. Qed.

Lemma set_target_output_same db tos :
  target_output db = Some tos → set_target_output tos db = db.
Proof. destruct db; simpl; intros ->; done. Qed.

Lemma key_in_table (t : ResolvedTargetID) (tos : list target_output_row) :
  (r, t) ∈ (λ row, (to_run row, to_target row)) <$> tos ↔
  ∃ row, row ∈ tos ∧ to_run row = r ∧ to_target row = t.
Proof.
  rewrite list_elem_of_fmap. split.
  - intros (row & Heq & Hin). simplify_eq. eauto.
  - intros (row & Hin & <- & <-). eauto.
Qed.

(** Distinct targets, none of them held by the run already: every row is
    written, after the rows that were there. *)
Lemma executemany_insert_ok outs : ∀ tos db,
  target_output db = Some tos →
  (∀ row, row ∈ tos → to_run row = r → to_target row ∉ outs.*1) →
  NoDup outs.*1 →
  ∃ new,
    executemany SQL_INSERT_TARGET_OUTPUT ((λ o, (r, o.1, o.2)) <$> outs) db
    = Ok ((), set_target_output (tos ++ new) db)
    ∧ Forall2 (row_of r) new outs.
Proof.
  induction outs as [|o outs IH]; intros tos db Htos Hfree Hnd.
  - exists []. split; [|constructor].
    simpl. unfold sql_ret. rewrite app_nil_r.
    by rewrite set_target_output_same.
  - rewrite fmap_cons in Hnd. apply NoDup_cons in Hnd as [Ho Hnd].
    set (row := {| to_id := next_rowid (to_id <$> tos); to_run := r;
                   to_target := o.1; to_fingerprint := o.2 |}).
    destruct (IH (tos ++ [row]) (set_target_output (tos ++ [row]) db))
      as (new & Hex & Hnew); [done| |done|].
    { intros row' Hin Hrun. apply elem_of_app in Hin as [Hin|Hin].
      - specialize (Hfree row' Hin Hrun). rewrite fmap_cons in Hfree.
        by apply not_elem_of_cons in Hfree as [_ ?].
      - apply list_elem_of_singleton in Hin as ->. done. }
    exists (row :: new). split; [|constructor; done].
    rewrite fmap_cons. simpl.
    unfold sql_bind at 1. unfold SQL_INSERT_TARGET_OUTPUT at 1.
    rewrite Htos. case_decide as Hkey.
    + apply key_in_table in Hkey as (row' & Hin & Hrun & Htgt).
      exfalso. apply (Hfree row' Hin Hrun). rewrite Htgt, fmap_cons.
      apply elem_of_cons. by left.
    + fold row. rewrite Hex.
      by rewrite set_target_output_twice, <- app_assoc.
Qed.

(** A target given twice, or one the run still holds: the insert raises
    the UNIQUE failure. *)
Lemma executemany_insert_clash outs : ∀ tos db,
  target_output db = Some tos →
  (∃ row, row ∈ tos ∧ to_run row = r ∧ to_target row ∈ outs.*1)
  ∨ ¬ NoDup outs.*1 →
  executemany SQL_INSERT_TARGET_OUTPUT ((λ o, (r, o.1, o.2)) <$> outs) db
  = Raise IntegrityError.
Proof.
  induction outs as [|o outs IH]; intros tos db Htos Hclash.
  - exfalso. destruct Hclash as [(row & _ & _ & Hin)|Hnd].
    + by apply elem_of_nil in Hin.
    + apply Hnd. constructor.
  - rewrite fmap_cons. simpl.
    unfold sql_bind at 1. unfold SQL_INSERT_TARGET_OUTPUT at 1.
    rewrite Htos. case_decide as Hkey; [done|].
        set (row := {| to_id := next_rowid (to_id <$> tos); to_run := r;
                   to_target := o.1; to_fingerprint := o.2 |}).
    apply (IH (tos ++ [row])); [done|].
    destruct Hclash as [(row' & Hin & Hrun & Htgt)|Hnd].
    + left. exists row'. split_and!; [apply elem_of_app; by left|done|].
      rewrite fmap_cons in Htgt. apply elem_of_cons in Htgt as [Heq|?]; [|done].
      exfalso. apply Hkey, key_in_table. eauto.
    + rewrite fmap_cons, NoDup_cons in Hnd.
      destruct (decide (o.1 ∈ outs.*1)) as [Hin|Hnin].
      * left. exists row. split_and!; [|done|done].
        apply elem_of_app. right. by apply list_elem_of_singleton.
      * right. intros Hnd'. apply Hnd. done.
Qed.

End BulkInsert.

(** ** [set_rule_previous_run] as a whole *)

Section SetRulePreviousRun.

Implicit Types (f : bytes) (outs : list (ResolvedTargetID * bytes)).
Implicit Types (db : database).

(** A [with self.con:] block that raises has written nothing. *)
Lemma with_con_raise {A} (body : sql A) db e :
  (with_con body db).1 = Raise e → (with_con body db).2 = db.
Proof. unfold with_con. by destruct (body db) as [[a db']|e']. Qed.

Lemma set_rule_previous_run_under_None f outs db :
  set_rule_previous_run_under None f outs db = set_rule_previous_run f outs db.
Proof. reflexivity. Qed.

(** When the call raises, the store is the one it started from. *)
Lemma set_rule_previous_run_raise f outs db e :
  (set_rule_previous_run f outs db).1 = Raise e →
  (set_rule_previous_run f outs db).2 = db.
Proof. apply with_con_raise. Qed.

Lemma deleted_rows_gone (run : Z) (tos : list target_output_row) row :
  row ∈ filter (λ x, to_run x ≠ run) tos → to_run row ≠ run.
Proof. by intros [? _]%list_elem_of_filter. Qed.

(** Steps 1 to 3 on a store that has both tables. *)
Lemma set_rule_previous_run_unfold f outs db rows tos :
  rule_run db = Some rows → target_output db = Some tos →
  let r := resolved_run_id f rows in
  let db3 := {| version := version db;
                rule_run := Some (upserted f rows);
                target_output := Some (filter (λ x, to_run x ≠ r) tos) |} in
  set_rule_previous_run f outs db =
    match executemany SQL_INSERT_TARGET_OUTPUT
            ((λ o, (r, o.1, o.2)) <$> outs) db3 with
    | Ok (_, db4) => (Ok r, db4)
    | Raise e => (Raise e, db)
    end.
Proof.
  intros Hrr Hto r db3. unfold set_rule_previous_run, with_con.
  unfold sql_bind at 1. rewrite (SQL_UPDATE_RULE_RUN_spec f db rows Hrr).
  unfold sql_bind at 1. unfold SQL_FETCH_RULE_RUN at 1. simpl.
  unfold fetchone. rewrite fetch_after_upsert. fold r.
  unfold sql_bind at 1. unfold SQL_DELETE_TARGET_OUTPUTS at 1. simpl.
  rewrite Hto. unfold sql_bind, sql_ret.
  change (set_target_output _ (set_rule_run _ db)) with db3.
  by destruct (executemany _ _ db3) as [[[] db4]|e].
Qed.

(** Distinct targets: the call returns the resolved id and the store holds
    the other runs' rows followed by one row per output. *)
Lemma set_rule_previous_run_ok f outs db rows tos :
  rule_run db = Some rows → target_output db = Some tos →
  NoDup outs.*1 →
  ∃ new,
    set_rule_previous_run f outs db =
      (Ok (resolved_run_id f rows),
       {| version := version db;
          rule_run := Some (upserted f rows);
          target_output :=
            Some (filter (λ x, to_run x ≠ resolved_run_id f rows) tos
                  ++ new) |})
    ∧ Forall2 (row_of (resolved_run_id f rows)) new outs.
Proof.
  intros Hrr Hto Hnd.
  rewrite (set_rule_previous_run_unfold f outs db rows tos Hrr Hto).
  set (r := resolved_run_id f rows).
  destruct (executemany_insert_ok r outs
              (filter (λ x, to_run x ≠ r) tos)
              {| version := version db;
                 rule_run := Some (upserted f rows);
                 target_output := Some (filter (λ x, to_run x ≠ r) tos) |})
    as (new & Hex & Hnew); [done| |done|].
  - intros row Hin Hrun. by apply deleted_rows_gone in Hin.
  - exists new. split; [|done]. simpl. by rewrite Hex.
Qed.

(** A repeated target: the call raises and the store is untouched. *)
Lemma set_rule_previous_run_duplicate f outs db :
  has_tables db → ¬ NoDup outs.*1 →
  set_rule_previous_run f outs db = (Raise IntegrityError, db).
Proof.
  intros [[rows Hrr] [tos Hto]] Hnd.
  rewrite (set_rule_previous_run_unfold f outs db rows tos Hrr Hto).
  erewrite executemany_insert_clash; [done|done|by right].
Qed.

(** A missing table: the first statement that needs it raises. *)
Lemma set_rule_previous_run_no_tables f outs db :
  ¬ has_tables db →
  set_rule_previous_run f outs db = (Raise OperationalError, db).
Proof.
  intros Hnt. unfold set_rule_previous_run, with_con.
  unfold sql_bind at 1.
  destruct (rule_run db) as [rows|] eqn:Hrr.
  - rewrite (SQL_UPDATE_RULE_RUN_spec f db rows Hrr).
    unfold sql_bind at 1. unfold SQL_FETCH_RULE_RUN at 1. simpl.
    unfold fetchone. rewrite fetch_after_upsert.
    unfold sql_bind at 1. unfold SQL_DELETE_TARGET_OUTPUTS at 1. simpl.
    destruct (target_output db) as [tos|] eqn:Hto; [|done].
    exfalso. apply Hnt. split; eauto.
  - unfold SQL_UPDATE_RULE_RUN. by rewrite Hrr.
Qed.

(** What a returning call tells about the store before and after. *)
Lemma set_rule_previous_run_inv f outs db r db' :
  set_rule_previous_run f outs db = (Ok r, db') →
  ∃ rows tos new,
    rule_run db = Some rows ∧ target_output db = Some tos ∧
    NoDup outs.*1 ∧ r = resolved_run_id f rows ∧
    db' = {| version := version db;
             rule_run := Some (upserted f rows);
             target_output := Some (filter (λ x, to_run x ≠ r) tos ++ new) |}
    ∧ Forall2 (row_of r) new outs.
Proof.
  intros Hcall.
  destruct (decide (has_tables db)) as [Hht|Hnt];
    [|by rewrite set_rule_previous_run_no_tables in Hcall].
  destruct (decide (NoDup outs.*1)) as [Hnd|Hnd];
    [|by rewrite set_rule_previous_run_duplicate in Hcall].
  destruct Hht as [[rows Hrr] [tos Hto]].
  destruct (set_rule_previous_run_ok f outs db rows tos Hrr Hto Hnd)
    as (new & Heq & Hnew).
  rewrite Heq in Hcall. simplify_eq. by exists rows, tos, new.
Qed.

End SetRulePreviousRun.

(** ** The two lookups *)

Section Lookups.

Implicit Types (f : bytes) (outs : list (ResolvedTargetID * bytes)).
Implicit Types (db : database) (t : ResolvedTargetID) (r : Z).

Lemma fetch_rule_previous_run_rows f db rows :
  rule_run db = Some rows →
  fetch_rule_previous_run f db
  = Ok (head (rr_id <$> filter (λ x, rr_fingerprint x = f) rows)).
Proof.
  intros Hrr. unfold fetch_rule_previous_run, query, SQL_FETCH_RULE_RUN.
  by rewrite Hrr.
Qed.

Lemma fetch_target_output_fingerprint_rows r t db tos :
  target_output db = Some tos →
  fetch_target_output_fingerprint r t db
  = Ok (head (to_fingerprint <$>
                filter (λ x, to_run x = r ∧ to_target x = t) tos)).
Proof.
  intros Hto.
  unfold fetch_target_output_fingerprint, query, SQL_FETCH_TARGET_OUTPUT.
  by rewrite Hto.
Qed.

Lemma filter_run_target_deleted r t (tos : list target_output_row) :
  filter (λ x, to_run x = r ∧ to_target x = t)
         (filter (λ x, to_run x ≠ r) tos) = [].
Proof.
  induction tos as [|x tos IH]; [done|].
  rewrite (filter_cons (λ x, to_run x ≠ r)). case_decide; [|done].
  rewrite filter_cons_False by (intros [? _]; done). done.
Qed.

Lemma filter_run_target_other r r' t (tos : list target_output_row) :
  r ≠ r' →
  filter (λ x, to_run x = r ∧ to_target x = t)
         (filter (λ x, to_run x ≠ r') tos)
  = filter (λ x, to_run x = r ∧ to_target x = t) tos.
Proof.
  intros Hne. induction tos as [|x tos IH]; [done|].
  rewrite (filter_cons (λ x, to_run x ≠ r')). case_decide as Hx.
  - rewrite !filter_cons, IH. done.
  - rewrite (filter_cons_False _ x tos); [done|].
    intros [Hr _]. apply Hne. congruence.
Qed.

Lemma filter_run_target_new r t new outs :
  Forall2 (row_of r) new outs →
  to_fingerprint <$> filter (λ x, to_run x = r ∧ to_target x = t) new
  = snd <$> filter (λ o, o.1 = t) outs.
Proof.
  induction 1 as [|row o new outs (Hrun & Htgt & Hfp) _ IH]; [done|].
  rewrite !filter_cons. destruct (decide (o.1 = t)) as [Ho|Ho].
  - rewrite decide_True by (split; congruence).
    rewrite !fmap_cons, IH. by rewrite Hfp.
  - rewrite decide_False by (intros [_ ?]; congruence). done.
Qed.

Lemma filter_run_target_new_other r r' t new outs :
  r ≠ r' → Forall2 (row_of r') new outs →
  filter (λ x, to_run x = r ∧ to_target x = t) new = [].
Proof.
  intros Hne. induction 1 as [|row o new outs (Hrun & _) _ IH]; [done|].
  rewrite filter_cons_False by (intros [? _]; congruence). done.
Qed.

(** After a call that returned [r], run [r] holds the outputs of that
    call and nothing else. *)
Lemma fetch_after_set f outs db r db' t :
  set_rule_previous_run f outs db = (Ok r, db') →
  fetch_target_output_fingerprint r t db' = Ok (output_of t outs).
Proof.
  intros (rows & tos & new & _ & _ & _ & _ & -> & Hnew)
    %set_rule_previous_run_inv.
  erewrite fetch_target_output_fingerprint_rows; [|done].
  rewrite filter_app, filter_run_target_deleted. simpl.
  rewrite (filter_run_target_new r t new outs Hnew).
  unfold output_of. by destruct (filter _ outs).
Qed.

(** ... and every other run holds what it held. *)
Lemma fetch_other_run_after_set f outs db r' db' r t :
  set_rule_previous_run f outs db = (Ok r', db') → r ≠ r' →
  fetch_target_output_fingerprint r t db'
  = fetch_target_output_fingerprint r t db.
Proof.
  intros (rows & tos & new & _ & Hto & _ & _ & -> & Hnew)
    %set_rule_previous_run_inv Hne.
  erewrite !fetch_target_output_fingerprint_rows; [|done|done].
  rewrite filter_app, (filter_run_target_other r r' t tos Hne).
  rewrite (filter_run_target_new_other r r' t new outs Hne Hnew).
  by rewrite app_nil_r.
Qed.

Lemma output_of_absent t outs : t ∉ outs.*1 → output_of t outs = None.
Proof.
  intros Ht. unfold output_of.
  induction outs as [|o outs IH]; [done|].
  rewrite fmap_cons, not_elem_of_cons in Ht. destruct Ht as [Hne Ht].
  rewrite filter_cons_False by (simpl; congruence). by apply IH.
Qed.

Lemma output_of_present t fp outs :
  NoDup outs.*1 → (t, fp) ∈ outs → output_of t outs = Some fp.
Proof.
  intros Hnd Hin. unfold output_of.
  induction outs as [|o outs IH]; [by apply elem_of_nil in Hin|].
  rewrite fmap_cons in Hnd. apply NoDup_cons in Hnd as [Ho Hnd].
  apply elem_of_cons in Hin as [<-|Hin].
  - by rewrite filter_cons_True.
  - rewrite filter_cons_False; [by apply IH|].
    intros Heq. apply Ho. rewrite Heq.
    change t with (t, fp).1. by apply list_elem_of_fmap_2.
Qed.

End Lookups.

(** ** The run table under the upsert *)

Section Upsert.

Implicit Types (f : bytes) (rows : list rule_run_row).

Lemma upserted_present f rows : f ∈ rr_fingerprint <$> upserted f rows.
Proof.
  unfold upserted. case_decide; [done|].
  rewrite fmap_app. apply elem_of_app. right. simpl.
  by apply list_elem_of_singleton.
Qed.

Lemma upserted_idem f rows : upserted f (upserted f rows) = upserted f rows.
Proof.
  unfold upserted at 1. by rewrite decide_True by apply upserted_present.
Qed.

Lemma resolved_run_id_upserted f rows :
  resolved_run_id f (upserted f rows) = resolved_run_id f rows.
Proof.
  pose proof (fetch_after_upsert f rows) as Hhead.
  unfold resolved_run_id at 1.
  destruct (filter _ (upserted f rows)); simplify_eq/=; done.
Qed.

(** The row that carries the resolved id. *)
Lemma resolved_row f rows :
  ∃ row, row ∈ upserted f rows ∧ rr_fingerprint row = f
         ∧ rr_id row = resolved_run_id f rows.
Proof.
  pose proof (fetch_after_upsert f rows) as Hhead.
  destruct (filter (λ r, rr_fingerprint r = f) (upserted f rows))
    as [|row l] eqn:Hfil; simplify_eq/=.
  assert (row ∈ filter (λ r, rr_fingerprint r = f) (upserted f rows))
    as [Hf Hin]%list_elem_of_filter by (rewrite Hfil; left).
  eauto.
Qed.

(** Rows are only ever appended, and a new row gets an unused id. *)
Lemma upserted_extends f rows :
  ∃ extra, upserted f rows = rows ++ extra
           ∧ (NoDup (rr_id <$> rows) → NoDup (rr_id <$> rows ++ extra)).
Proof.
  unfold upserted. case_decide.
  - exists []. by rewrite app_nil_r.
  - eexists. split; [done|]. intros Hnd.
    rewrite fmap_app. apply NoDup_app. split_and!; [done| |].
    + intros i Hi Hnew. simpl in Hnew.
      apply list_elem_of_singleton in Hnew as ->.
      by apply next_rowid_fresh in Hi.
    + simpl. apply NoDup_singleton.
Qed.

Lemma upserted_other_rows f rows :
  filter (λ x, rr_fingerprint x ≠ f) (upserted f rows)
  = filter (λ x, rr_fingerprint x ≠ f) rows.
Proof.
  unfold upserted. case_decide; [done|].
  rewrite filter_app, filter_cons_False by (simpl; intros Hne; by apply Hne).
  by rewrite app_nil_r.
Qed.

End Upsert.

Section OtherRuns.

Lemma filter_other_runs_idem (r : Z) (tos : list target_output_row) :
  filter (λ x, to_run x ≠ r) (filter (λ x, to_run x ≠ r) tos)
  = filter (λ x, to_run x ≠ r) tos.
Proof.
  induction tos as [|x tos IH]; [done|].
  rewrite (filter_cons _ x tos). case_decide; [|done].
  by rewrite filter_cons_True, IH.
Qed.

Lemma filter_other_runs_new (r : Z) new
    (outs : list (ResolvedTargetID * bytes)) :
  Forall2 (row_of r) new outs → filter (λ x, to_run x ≠ r) new = [].
Proof.
  induction 1 as [|row o new outs (Hrun & _) _ IH]; [done|].
  by rewrite filter_cons_False by (intros Hne; by apply Hne).
Qed.

End OtherRuns.

(** * The claims about [set_rule_previous_run] and the lookups *)

(** C1. [set_rule_previous_run] is all or nothing.  On a store with both
    tables, a call whose outputs name a target twice raises the
    uniqueness failure ([IntegrityError]) and the store is exactly the one
    before the call.  And whatever the fingerprint, the outputs and the
    store, and at whichever of the four steps the engine may fail on its own
    account (no fault at all included), if the call raises then the store
    after it is the store before it: the upsert, the deletion and the rows
    inserted so far are rolled back. *)
Theorem set_rule_previous_run_all_or_nothing
    (f : bytes) (outs : list (ResolvedTargetID * bytes)) (db : database) :
  has_tables db → ¬ NoDup outs.*1 →
  set_rule_previous_run f outs db = (Raise IntegrityError, db)
  ∧ ∀ fault f' outs' db' e,
      (set_rule_previous_run_under fault f' outs' db').1 = Raise e →
      (set_rule_previous_run_under fault f' outs' db').2 = db'.
Proof.
  intros Hht Hnd. split.
  - by apply set_rule_previous_run_duplicate.
  - intros fault f' outs' db' e. apply with_con_raise.
Qed.

(** C2. Idempotence by fingerprint.  On a store with both tables, recording
    [f] with [outs1] and then with [outs2] (targets distinct within each
    call) returns the same run id both times; the second call leaves the
    [rule_run] table as the first one left it; and afterwards the lookup of
    that run gives, for every target of [outs2], its [outs2] fingerprint,
    and nothing for any target that is not in [outs2]. *)
Theorem set_rule_previous_run_twice
    (f : bytes) (outs1 outs2 : list (ResolvedTargetID * bytes))
    (db : database) :
  has_tables db → NoDup outs1.*1 → NoDup outs2.*1 →
  ∃ r db1 db2,
    set_rule_previous_run f outs1 db = (Ok r, db1)
    ∧ set_rule_previous_run f outs2 db1 = (Ok r, db2)
    ∧ rule_run db2 = rule_run db1
    ∧ (∀ t fp, (t, fp) ∈ outs2 →
         fetch_target_output_fingerprint r t db2 = Ok (Some fp))
    ∧ (∀ t, t ∉ outs2.*1 →
         fetch_target_output_fingerprint r t db2 = Ok None).
Proof.
  intros [[rows Hrr] [tos Hto]] Hnd1 Hnd2.
  destruct (set_rule_previous_run_ok f outs1 db rows tos Hrr Hto Hnd1)
    as (new1 & Hcall1 & _).
  set (r := resolved_run_id f rows) in *.
  set (db1 := {| version := version db; rule_run := Some (upserted f rows);
                 target_output := Some (filter (λ x, to_run x ≠ r) tos ++ new1) |})
    in *.
  destruct (set_rule_previous_run_ok f outs2 db1 (upserted f rows)
              (filter (λ x, to_run x ≠ r) tos ++ new1) eq_refl eq_refl Hnd2)
    as (new2 & Hcall2 & _).
  rewrite resolved_run_id_upserted, upserted_idem in Hcall2. fold r in Hcall2.
  eexists r, db1, _. split_and!; [done|exact Hcall2|done| |].
  - intros t fp Hin. rewrite (fetch_after_set _ _ _ _ _ t Hcall2).
    by rewrite (output_of_present t fp outs2).
  - intros t Hnin. rewrite (fetch_after_set _ _ _ _ _ t Hcall2).
    by rewrite output_of_absent.
Qed.

(** C10. Frame of a call that returns.  The version table is the one before
    the call; the [rule_run] rows whose fingerprint is not [f] are the same
    rows in the same order; and so are the [target_output] rows owned by
    any run other than the one returned. *)
Theorem set_rule_previous_run_frame
    (f : bytes) (outs : list (ResolvedTargetID * bytes)) (db db' : database)
    (r : RuleRunID) :
  set_rule_previous_run f outs db = (Ok r, db') →
  version db' = version db
  ∧ ∃ rows rows' tos tos',
      rule_run db = Some rows ∧ rule_run db' = Some rows'
      ∧ target_output db = Some tos ∧ target_output db' = Some tos'
      ∧ filter (λ x, rr_fingerprint x ≠ f) rows'
        = filter (λ x, rr_fingerprint x ≠ f) rows
      ∧ filter (λ x, to_run x ≠ r) tos' = filter (λ x, to_run x ≠ r) tos.
Proof.
  intros (rows & tos & new & Hrr & Hto & _ & _ & -> & Hnew)
    %set_rule_previous_run_inv.
  split; [done|].
  eexists rows, _, tos, _. split_and!; [done|done|done|done| |].
  - apply upserted_other_rows.
  - rewrite filter_app, filter_other_runs_idem.
    rewrite (filter_other_runs_new r new outs Hnew). by rewrite app_nil_r.
Qed.

(** ** Histories *)

Section Histories.

Implicit Types (f g : bytes) (outs : list (ResolvedTargetID * bytes)).
Implicit Types (db : database) (calls : list call).

Lemma upserted_filter_other f g (rows : list rule_run_row) :
  f ≠ g →
  filter (λ x, rr_fingerprint x = g) (upserted f rows)
  = filter (λ x, rr_fingerprint x = g) rows.
Proof.
  intros Hne. unfold upserted. case_decide; [done|].
  rewrite filter_app, filter_cons_False by done. by rewrite app_nil_r.
Qed.

(** One call keeps a fingerprint unknown unless it records it. *)
Lemma fetch_rule_previous_run_step g f outs db :
  fetch_rule_previous_run g db = Ok None →
  ¬ (f = g ∧ ∃ r, (set_rule_previous_run f outs db).1 = Ok r) →
  fetch_rule_previous_run g (set_rule_previous_run f outs db).2 = Ok None.
Proof.
  intros Hnone Hnot.
  destruct (set_rule_previous_run f outs db) as [[r|e] db'] eqn:Hcall.
  - apply set_rule_previous_run_inv in Hcall
      as (rows & tos & new & Hrr & _ & _ & _ & -> & _). simpl in *.
    rewrite (fetch_rule_previous_run_rows g db rows Hrr) in Hnone.
    erewrite fetch_rule_previous_run_rows; [|done].
    rewrite upserted_filter_other; [done|].
    intros ->. apply Hnot. eauto.
  - pose proof (set_rule_previous_run_raise f outs db e) as Hsame.
    rewrite Hcall in Hsame. simpl in *. by rewrite Hsame.
Qed.

Lemma fetch_rule_previous_run_history g calls : ∀ db,
  fetch_rule_previous_run g db = Ok None →
  ¬ run_recorded g calls db →
  fetch_rule_previous_run g (replay calls db) = Ok None.
Proof.
  induction calls as [|c calls IH]; intros db Hnone Hnot; [done|].
  simpl in *. apply IH.
  - apply fetch_rule_previous_run_step; [done|]. tauto.
  - tauto.
Qed.

(** One call keeps a (run, target) pair without output unless it records
    it. *)
Lemma fetch_target_output_fingerprint_step r t f outs db :
  fetch_target_output_fingerprint r t db = Ok None →
  ¬ ((set_rule_previous_run f outs db).1 = Ok r ∧ t ∈ outs.*1) →
  fetch_target_output_fingerprint r t (set_rule_previous_run f outs db).2
  = Ok None.
Proof.
  intros Hnone Hnot.
  destruct (set_rule_previous_run f outs db) as [[r'|e] db'] eqn:Hcall.
  - simpl in *. destruct (decide (r = r')) as [<-|Hne].
    + rewrite (fetch_after_set _ _ _ _ _ t Hcall).
      rewrite output_of_absent; [done|]. intros Hin. by apply Hnot.
    + by rewrite (fetch_other_run_after_set _ _ _ _ _ r t Hcall Hne).
  - pose proof (set_rule_previous_run_raise f outs db e) as Hsame.
    rewrite Hcall in Hsame. simpl in *. by rewrite Hsame.
Qed.

(** One call appends at most one row to [rule_run], under an unused id,
    and keeps both tables. *)
Lemma set_rule_previous_run_extends f outs db rows :
  rule_run db = Some rows →
  ∃ extra,
    rule_run (set_rule_previous_run f outs db).2 = Some (rows ++ extra)
    ∧ (NoDup (rr_id <$> rows) → NoDup (rr_id <$> rows ++ extra))
    ∧ (is_Some (target_output db) →
       is_Some (target_output (set_rule_previous_run f outs db).2)).
Proof.
  intros Hrr.
  destruct (set_rule_previous_run f outs db) as [[r|e] db'] eqn:Hcall.
  - apply set_rule_previous_run_inv in Hcall
      as (rows' & tos & new & Hrr' & _ & _ & _ & -> & _). simplify_eq/=.
    destruct (upserted_extends f rows) as (extra & -> & Hnd).
    exists extra. split_and!; [done|done|by eauto].
  - pose proof (set_rule_previous_run_raise f outs db e) as Hsame.
    rewrite Hcall in Hsame. specialize (Hsame eq_refl). simpl in *. subst db'.
    exists []. rewrite app_nil_r. done.
Qed.

Lemma replay_extends calls : ∀ db rows,
  rule_run db = Some rows → is_Some (target_output db) →
  ∃ extra,
    rule_run (replay calls db) = Some (rows ++ extra)
    ∧ (NoDup (rr_id <$> rows) → NoDup (rr_id <$> rows ++ extra))
    ∧ is_Some (target_output (replay calls db)).
Proof.
  induction calls as [|c calls IH]; intros db rows Hrr Hto.
  - exists []. rewrite app_nil_r. done.
  - destruct (set_rule_previous_run_extends c.1 c.2 db rows Hrr)
      as (extra1 & Hrr1 & Hnd1 & Hto1).
    destruct (IH _ _ Hrr1 (Hto1 Hto)) as (extra2 & Hrr2 & Hnd2 & Hto2).
    exists (extra1 ++ extra2). simpl. rewrite app_assoc.
    split_and!; [done|by eauto|done].
Qed.

(** Every store that the calls build from the fresh one has both tables
    and pairwise distinct run ids. *)
Lemma replay_fresh_invariant calls :
  has_tables (replay calls fresh_database)
  ∧ rule_run_ids_unique (replay calls fresh_database).
Proof.
  destruct (replay_extends calls fresh_database [] eq_refl)
    as (extra & Hrr & Hnd & Hto); [by eexists|].
  split.
  - split; [by eexists|done].
  - intros rows Hrows. rewrite Hrr in Hrows. simplify_eq.
    apply Hnd. constructor.
Qed.

Lemma NoDup_fmap_elem_inj {A B} (h : A → B) (l : list A) x y :
  NoDup (h <$> l) → x ∈ l → y ∈ l → h x = h y → x = y.
Proof.
  induction l as [|a l IH]; intros Hnd Hx Hy Heq.
  - by apply elem_of_nil in Hx.
  - rewrite fmap_cons in Hnd. apply NoDup_cons in Hnd as [Ha Hnd].
    apply elem_of_cons in Hx as [->|Hx]; apply elem_of_cons in Hy as [->|Hy].
    + done.
    + exfalso. apply Ha. rewrite Heq. by apply list_elem_of_fmap_2.
    + exfalso. apply Ha. rewrite <- Heq. by apply list_elem_of_fmap_2.
    + by apply IH.
Qed.

End Histories.

(** C4. Round trip.  On a store with both tables, a call with distinct
    targets returns a run id, and [fetch_rule_previous_run] of the same
    fingerprint right after it returns exactly that id; and a fingerprint
    that the store does not know stays unknown ([None], no exception)
    through any history of calls none of which recorded it. *)
Theorem fetch_rule_previous_run_round_trip
    (f : bytes) (outs : list (ResolvedTargetID * bytes)) (db : database) :
  has_tables db → NoDup outs.*1 →
  (∃ r db',
     set_rule_previous_run f outs db = (Ok r, db')
     ∧ fetch_rule_previous_run f db' = Ok (Some r))
  ∧ ∀ g calls,
      fetch_rule_previous_run g db = Ok None →
      ¬ run_recorded g calls db →
      fetch_rule_previous_run g (replay calls db) = Ok None.
Proof.
  intros [[rows Hrr] [tos Hto]] Hnd. split.
  - destruct (set_rule_previous_run_ok f outs db rows tos Hrr Hto Hnd)
      as (new & Hcall & _).
    eexists _, _. split; [exact Hcall|].
    erewrite fetch_rule_previous_run_rows; [|done].
    by rewrite fetch_after_upsert.
  - intros g calls. apply fetch_rule_previous_run_history.
Qed.

(** C5. Distinct fingerprints get distinct run ids.  On a store with both
    tables whose [rule_run] ids are pairwise distinct, recording [f1] and,
    after any further calls, recording [f2 ≠ f1] (targets distinct within
    each of the two calls) both return, with different ids. *)
Theorem set_rule_previous_run_distinct_ids
    (f1 f2 : bytes) (outs1 outs2 : list (ResolvedTargetID * bytes))
    (mid : list call) (db : database) :
  has_tables db → rule_run_ids_unique db → f1 ≠ f2 →
  NoDup outs1.*1 → NoDup outs2.*1 →
  ∃ r1 db1 r2 db2,
    set_rule_previous_run f1 outs1 db = (Ok r1, db1)
    ∧ set_rule_previous_run f2 outs2 (replay mid db1) = (Ok r2, db2)
    ∧ r1 ≠ r2.
Proof.
  intros [[rows Hrr] [tos Hto]] Huniq Hne Hnd1 Hnd2.
  destruct (set_rule_previous_run_ok f1 outs1 db rows tos Hrr Hto Hnd1)
    as (new1 & Hcall1 & _).
  set (db1 := {| version := version db; rule_run := Some (upserted f1 rows);
                 target_output := _ |}) in Hcall1.
  destruct (upserted_extends f1 rows) as (extra1 & Hup1 & Hnd_up1).
  destruct (replay_extends mid db1 (upserted f1 rows) eq_refl)
    as (extra & Hrr_mid & Hnd_mid & [tos_mid Hto_mid]); [by eexists|].
  destruct (set_rule_previous_run_ok f2 outs2 (replay mid db1) _ _
              Hrr_mid Hto_mid Hnd2) as (new2 & Hcall2 & _).
  eexists _, db1, _, _. split_and!; [exact Hcall1|exact Hcall2|].
  destruct (resolved_row f1 rows) as (row1 & Hin1 & Hf1 & <-).
  destruct (resolved_row f2 (upserted f1 rows ++ extra))
    as (row2 & Hin2 & Hf2 & <-).
  destruct (upserted_extends f2 (upserted f1 rows ++ extra))
    as (extra2 & Hup2 & Hnd_up2).
  intros Heq. apply Hne. rewrite <- Hf1, <- Hf2. f_equal.
  apply (NoDup_fmap_elem_inj rr_id (upserted f2 (upserted f1 rows ++ extra)));
    [|by rewrite Hup2, <- app_assoc; apply elem_of_app; left|done|done].
  rewrite Hup2. apply Hnd_up2, Hnd_mid. rewrite Hup1. apply Hnd_up1.
  by apply Huniq.
Qed.

(** C8. A (run, target) pair that was never recorded has no output.  If the
    lookup of the pair finds nothing in a store, it still returns [None]
    (not an exception, not a placeholder value) after any history of calls
    in which no call returned that run id with that target among its
    outputs, be it that the run id was never returned at all or that the
    run never listed the target. *)
Theorem fetch_target_output_fingerprint_never_recorded
    (run_id : RuleRunID) (target : ResolvedTargetID) (calls : list call)
    (db : database) :
  fetch_target_output_fingerprint run_id target db = Ok None →
  ¬ recorded run_id target calls db →
  fetch_target_output_fingerprint run_id target (replay calls db) = Ok None.
Proof.
  revert db. induction calls as [|c calls IH]; intros db Hnone Hnot; [done|].
  simpl in *. apply IH.
  - apply fetch_target_output_fingerprint_step; [done|]. tauto.
  - tauto.
Qed.

(** * Opening a store *)

Section Opening.

Implicit Types (flt : faults) (w : world) (db : database).
Implicit Types (cons : list Connection) (n m : Connection).

Lemma con_execute_open {A} (con : Connection) (stmt : sql A) db cons n :
  con ∈ cons →
  con_execute con stmt
    {| file := Some (Database db); open_cons := cons; next_con := n |}
  = match stmt db with
    | Ok (a, db') =>
        (Ok a, {| file := Some (Database db'); open_cons := cons;
                  next_con := n |})
    | Raise e =>
        (Raise e, {| file := Some (Database db); open_cons := cons;
                     next_con := n |})
    end.
Proof. intros Hin. unfold con_execute. simpl. by rewrite decide_True. Qed.

(** Without a fault the recreation writes [fresh_database] into a file
    that was not there and returns the new connection, open. *)
Lemma recreate_schema_ok flt cons n :
  recreation_fault flt = None →
  recreate_schema flt {| file := None; open_cons := cons; next_con := n |}
  = (Ok n, {| file := Some (Database fresh_database);
              open_cons := n :: cons; next_con := S n |}).
Proof.
  unfold recreation_fault, recreate_schema. intros Hnf.
  destruct (f_reconnect flt) as [e|] eqn:Hrc; [done|].
  unfold io_bind at 1. unfold sqlite3_connect at 1. simpl.
  assert (∀ k stmt w, (k < 4)%nat →
            recreate_step (f_recreate flt) k n stmt w
            = con_execute n stmt w) as Hstep.
  { intros k stmt w Hk. unfold recreate_step.
    destruct (f_recreate flt) as [[i e]|]; [|done].
    destruct (decide (i = k)) as [->|]; [|done].
    by rewrite decide_True in Hnf by done. }
  unfold io_bind.
  do 4 (rewrite Hstep by lia; rewrite con_execute_open by (by left); simpl).
  done.
Qed.

(** With a fault the recreation raises it, and opens no connection but
    the one it may have made itself. *)
Lemma recreate_schema_fault flt cons n e :
  recreation_fault flt = Some e →
  ∃ w', recreate_schema flt
          {| file := None; open_cons := cons; next_con := n |}
        = (Raise e, w')
        ∧ (∀ c, c ∈ open_cons w' → c = n ∨ c ∈ cons)
        ∧ (f_reconnect flt = None → n ∈ open_cons w').
Proof.
  unfold recreation_fault, recreate_schema. intros Hf.
  destruct (f_reconnect flt) as [e'|] eqn:Hrc.
  { simplify_eq. eexists. split_and!; [done| |done]. simpl. auto. }
  destruct (f_recreate flt) as [[k e']|] eqn:Hk; [|done].
  case_decide as Hlt; [|done]. simplify_eq.
  unfold io_bind at 1. unfold sqlite3_connect at 1. simpl.
  assert (∀ c, c ∈ n :: cons → c = n ∨ c ∈ cons) as Hcons
    by (by intros c ?%elem_of_cons).
  assert (n ∈ n :: cons) as Hn by (by left).
  destruct k as [|[|[|[|k]]]]; [| | | |lia];
    unfold io_bind, recreate_step; simpl;
    rewrite ?con_execute_open by (by left); simpl;
    rewrite ?con_execute_open by (by left); simpl;
    rewrite ?con_execute_open by (by left); simpl;
    (eexists; split_and!; [done|exact Hcons|done]).
Qed.

(** The optimistic check sends a file without [version] table, or with
    another version in its marker, to the reset: close, delete,
    recreate. *)
Lemma init_or_reset_db_reset flt fl cons m db :
  f_connect flt = None →
  opened fl = Database db →
  version db = None ∨ (∃ v, marker_value db = Ok (Some v) ∧ v ≠ DB_VERSION) →
  init_or_reset_db flt {| file := fl; open_cons := cons; next_con := m |}
  = match f_unlink flt with
    | Some e =>
        if is_FileNotFoundError e
        then io_try (recreate_schema flt) handler_recreate
               (closed None cons m)
        else (Raise (IsengardDBError CannotDelete e),
              closed (Some (Database db)) cons m)
    | None =>
        io_try (recreate_schema flt) handler_recreate (closed None cons m)
    end.
Proof.
  intros Hfc Hfl Hstale. unfold init_or_reset_db. rewrite Hfc.
  unfold io_bind at 1. unfold io_try at 1. unfold sqlite3_connect at 1.
  cbv beta iota. simpl file. simpl open_cons. simpl next_con. rewrite Hfl.
  unfold io_bind at 1. unfold io_try at 1. unfold io_bind at 1.
  rewrite con_execute_open by (by left).
  assert (∃ v, v ≠ DB_VERSION ∧
    match
      (let (r, w') :=
         match SQL_FETCH_VERSION_ROW db with
         | Ok (a, db') =>
             (Ok a, {| file := Some (Database db'); open_cons := m :: cons;
                       next_con := S m |})
         | Raise e =>
             (Raise e, {| file := Some (Database db); open_cons := m :: cons;
                          next_con := S m |})
         end in
       match r with
       | Ok a => unpack1 (fetchone a) w'
       | Raise e => (Raise e, w')
       end)
    with
    | (Ok a, w') => (Ok a, w')
    | (Raise e, w') =>
        match (if is_OperationalError e then Some (io_ret (-1)) else None)
        with
        | Some h => h w'
        | None => (Raise e, w')
        end
    end = (Ok v, {| file := Some (Database db); open_cons := m :: cons;
                    next_con := S m |})) as (v & Hv & ->).
  { destruct Hstale as [Hnone|(v & Hmv & Hv)].
    - exists (-1). split; [done|]. unfold SQL_FETCH_VERSION_ROW.
      by rewrite Hnone.
    - exists v. split; [done|]. unfold marker_value, query in Hmv.
      unfold SQL_FETCH_VERSION_ROW in *.
      destruct (version db) as [rows|]; [|done]. simplify_eq/=.
      by rewrite Hmv. }
  rewrite decide_True by done.
  unfold io_bind at 1. unfold con_close at 1. cbv beta iota.
  simpl file. simpl open_cons. simpl next_con.
  unfold io_bind at 1. unfold io_try at 1. unfold path_unlink at 1.
  destruct (f_unlink flt) as [e|]; [destruct (is_FileNotFoundError e)|];
    done.
Qed.

Lemma recreate_outcome flt cons m :
  ∃ w',
    io_try (recreate_schema flt) handler_recreate (closed None cons m)
    = (match recreation_fault flt with
       | None => Ok (S m)
       | Some e => if is_OperationalError e
                   then Raise (IsengardDBError CannotRecreate e)
                   else Raise e
       end, w')
    ∧ (m ∉ open_cons w')
    ∧ (f_reconnect flt = None → S m ∈ open_cons w')
    ∧ (recreation_fault flt = None →
       file w' = Some (Database fresh_database)).
Proof.
  unfold io_try, closed.
  destruct (recreation_fault flt) as [e|] eqn:Hf.
  - destruct (recreate_schema_fault flt
                (filter (λ c, c ≠ m) (m :: cons)) (S m) e Hf)
      as (w' & -> & Hcons & Hopen).
    assert (m ∉ open_cons w') as Hm.
    { intros [?|[? _]%list_elem_of_filter]%Hcons; [lia|done]. }
    exists w'. unfold handler_recreate.
    destruct (is_OperationalError e); done.
  - rewrite (recreate_schema_ok flt _ _ Hf).
    eexists. split; [done|]. simpl. split_and!.
    + intros [?|[? _]%list_elem_of_filter]%elem_of_cons; [lia|done].
    + intros _. by left.
    + done.
Qed.

(** C7. Opening a location where there is no file, with nothing failing
    underneath, returns an open connection to a store in which the
    [rule_run] and [target_output] tables exist and are empty and the
    [version] table holds exactly one row, the marker, with the current
    schema version. *)
Theorem init_or_reset_db_fresh_location cons m :
  ∃ con w' db,
    init_or_reset_db no_faults
      {| file := None; open_cons := cons; next_con := m |} = (Ok con, w')
    ∧ con ∈ open_cons w'
    ∧ file w' = Some (Database db)
    ∧ rule_run db = Some []
    ∧ target_output db = Some []
    ∧ version db = Some [{| v_magic := VERSION_MAGIC_NUMBER;
                            v_value := DB_VERSION |}]
    ∧ marker_value db = Ok (Some DB_VERSION).
Proof.
  rewrite (init_or_reset_db_reset no_faults None cons m empty_database);
    [|done|done|by left].
  destruct (recreate_outcome no_faults cons m)
    as (w' & Heq & _ & Hopen & Hfile).
  exists (S m), w', fresh_database. simpl in *. rewrite Heq.
  split_and!; [done|by apply Hopen|by apply Hfile|done..].
Qed.

(** C6, as amended.  Take a file that SQLite reads and that has no
    [version] table, or whose marker holds a version other than the
    current one, and let the first connect succeed.  Then the first
    connection (its handle is [next_con w]) is closed whatever follows; a
    deletion that fails for another reason than the file being absent
    raises [IsengardDBError] and leaves the file; if the deletion passes
    (the file was removed, or was already gone) and the engine raises
    nothing, the caller gets an open connection to a file that holds
    exactly the fresh store (three tables, one marker of the current
    version); and if the deletion passes and the engine raises an
    [OperationalError] during the recreation, [IsengardDBError] is
    raised. *)
Theorem init_or_reset_db_replaces_incompatible flt w c :
  f_connect flt = None → file w = Some c →
  version_table_absent_or_marker_incorrect c →
  let out := init_or_reset_db flt w in
  (next_con w ∉ open_cons out.2)
  ∧ (∀ e, f_unlink flt = Some e → is_FileNotFoundError e = false →
       out.1 = Raise (IsengardDBError CannotDelete e)
       ∧ file out.2 = file w)
  ∧ (deletion_passed flt = true → recreation_fault flt = None →
       ∃ con, out.1 = Ok con ∧ con ∈ open_cons out.2
              ∧ file out.2 = Some (Database fresh_database))
  ∧ (deletion_passed flt = true →
       ∀ e, recreation_fault flt = Some e → is_OperationalError e = true →
         out.1 = Raise (IsengardDBError CannotRecreate e)).
Proof.
  destruct w as [fl cons m]. simpl. intros Hfc -> (db & -> & Hstale).
  rewrite (init_or_reset_db_reset flt (Some (Database db)) cons m db Hfc eq_refl
             Hstale).
  destruct (recreate_outcome flt cons m) as (w' & Heq & Hm & Hopen & Hfile).
  assert (recreation_fault flt = None → f_reconnect flt = None) as Hrc.
  { unfold recreation_fault. by destruct (f_reconnect flt). }
  unfold deletion_passed.
  destruct (f_unlink flt) as [e|] eqn:Hunl;
    [destruct (is_FileNotFoundError e) eqn:Hfnf|].
  - rewrite Heq. simpl. split_and!; [done| | |].
    + intros e' ? ?. simplify_eq. congruence.
    + intros _ Hnf. rewrite Hnf. exists (S m). split_and!; auto.
    + intros _ e' -> ->. done.
  - simpl. split_and!; [by intros [? _]%list_elem_of_filter| | |].
    + intros e' ? _. by simplify_eq.
    + done.
    + done.
  - rewrite Heq. simpl. split_and!; [done| | |].
    + done.
    + intros _ Hnf. rewrite Hnf. exists (S m). split_and!; auto.
    + intros _ e' -> ->. done.
Qed.

(** C3.  A file whose [version] table exists but holds no marker row is
    not reset.  Whenever the first connect succeeds on such a file, the
    unpacking of the missing row raises [TypeError], which no [except]
    clause catches: it reaches the caller, the file stays as it is and the
    connection just made stays open. *)
Theorem init_or_reset_db_marker_row_missing flt cons m db :
  f_connect flt = None → marker_value db = Ok None →
  init_or_reset_db flt
    {| file := Some (Database db); open_cons := cons; next_con := m |}
  = (Raise TypeError,
     {| file := Some (Database db); open_cons := m :: cons;
        next_con := S m |}).
Proof.
  intros Hfc Hmv. unfold init_or_reset_db. rewrite Hfc.
  unfold io_bind at 1. unfold io_try at 1. unfold sqlite3_connect at 1.
  cbv beta iota. simpl file. simpl open_cons. simpl next_con.
  change (opened (Some (Database db))) with (Database db).
  unfold io_bind at 1. unfold io_try at 1. unfold io_bind at 1.
  rewrite con_execute_open by (by left).
  unfold marker_value, query in Hmv. unfold SQL_FETCH_VERSION_ROW in *.
  destruct (version db) as [rows|]; [|done]. simplify_eq/=.
  by rewrite Hmv.
Qed.

(** A file whose marker holds the current version is returned as it is,
    on the connection just made. *)
Lemma init_or_reset_db_compatible flt cons m db :
  f_connect flt = None → marker_value db = Ok (Some DB_VERSION) →
  init_or_reset_db flt
    {| file := Some (Database db); open_cons := cons; next_con := m |}
  = (Ok m,
     {| file := Some (Database db); open_cons := m :: cons;
        next_con := S m |}).
Proof.
  intros Hfc Hmv. unfold init_or_reset_db. rewrite Hfc.
  unfold io_bind at 1. unfold io_try at 1. unfold sqlite3_connect at 1.
  cbv beta iota. simpl file. simpl open_cons. simpl next_con.
  change (opened (Some (Database db))) with (Database db).
  unfold io_bind at 1. unfold io_try at 1. unfold io_bind at 1.
  rewrite con_execute_open by (by left).
  unfold marker_value, query in Hmv. unfold SQL_FETCH_VERSION_ROW in *.
  destruct (version db) as [rows|]; [|done]. simplify_eq/=.
  by rewrite Hmv.
Qed.

(** Such a file is what [init_or_reset_db] itself leaves behind when the
    INSERT of the marker fails after the three tables have been created. *)
Example failed_recreation_leaves_no_marker :
  init_or_reset_db (fault_in_recreation 3 OperationalError) no_file
  = (Raise (IsengardDBError CannotRecreate OperationalError),
     {| file := Some (Database database_without_marker);
        open_cons := [1%nat]; next_con := 2%nat |}).
Proof. reflexivity. Qed.

(** A file that SQLite cannot read is not reset either: the
    [DatabaseError] of the first statement is no [OperationalError]. *)
Example init_or_reset_db_not_a_database :
  init_or_reset_db no_faults (file_with NotADatabase)
  = (Raise DatabaseError,
     {| file := Some NotADatabase; open_cons := [0%nat]; next_con := 1%nat |}).
Proof. reflexivity. Qed.

(** What [DB.connect] does release: once [init_or_reset_db] has returned
    a connection, that connection is closed when the block is left,
    whether its body returned or raised. *)
Lemma connect_closes_after_body {A} flt (body : Connection → io A) w con w1 :
  init_or_reset_db flt w = (Ok con, w1) →
  (connect flt body w).1 = (body con w1).1
  ∧ con ∉ open_cons (connect flt body w).2.
Proof.
  intros Hinit. unfold connect, io_bind, io_finally. rewrite Hinit.
  destruct (body con w1) as [r w2]. simpl. split; [done|].
  by intros [? _]%list_elem_of_filter.
Qed.

(** C9.  When a statement of the recreation fails, the connection that the
    recreation has made stays open.  Take a location that needs the reset
    (no file, no [version] table, or another version in the marker), let
    the first connect, the deletion and the second connect pass and let
    the engine raise [e] at one of the four statements: [DB.connect]
    raises ([IsengardDBError] if [e] is an [OperationalError], else [e])
    without running the body of the block, and the second connection (its
    handle is [S (next_con w)]) is still open afterwards. *)
Theorem connect_recreation_failure_leaves_connection_open
    {A} (body : Connection → io A) flt w k e :
  f_connect flt = None →
  version_table_absent_or_marker_incorrect (opened (file w)) →
  deletion_passed flt = true →
  f_reconnect flt = None → f_recreate flt = Some (k, e) → (k < 4)%nat →
  let out := connect flt body w in
  out.1 = (if is_OperationalError e
           then Raise (IsengardDBError CannotRecreate e) else Raise e)
  ∧ S (next_con w) ∈ open_cons out.2.
Proof.
  destruct w as [fl cons m].
  intros Hfc (db & Hfl & Hstale) Hdel Hrc Hk Hlt out. simpl in Hfl.
  destruct (recreate_outcome flt cons m) as (w' & Heq & _ & Hopen & _).
  assert (recreation_fault flt = Some e) as Hf.
  { unfold recreation_fault. rewrite Hrc, Hk. by rewrite decide_True. }
  rewrite Hf in Heq.
  assert (out = (if is_OperationalError e
                 then Raise (IsengardDBError CannotRecreate e)
                 else Raise e, w')) as ->.
  { unfold out, connect. unfold io_bind at 1.
    rewrite (init_or_reset_db_reset flt fl cons m db Hfc Hfl Hstale).
    unfold deletion_passed in Hdel.
    destruct (f_unlink flt) as [e0|]; [rewrite Hdel|]; rewrite Heq;
      by destruct (is_OperationalError e). }
  simpl. auto.
Qed.

End Opening.

(** C6, as it is worded, fails on the code in two ways.  A file whose
    [version] table has no marker row has an absent marker, yet opening it
    with nothing failing underneath is neither a replacement nor an
    [IsengardDBError] (it is the [TypeError] of the missing row).  And a
    store of version 2 is incompatible, yet when the INSERT of the marker
    raises [IntegrityError] during the recreation, that exception reaches
    the caller as it is: the [try] block catches [OperationalError] only. *)
Lemma reset_contract_counterexample :
  (marker_absent_or_incorrect (Database database_without_marker)
   ∧ ¬ replaced_or_DBError no_faults
         (file_with (Database database_without_marker)))
  ∧ (marker_absent_or_incorrect (Database database_of_version_2)
     ∧ ¬ replaced_or_DBError (fault_in_recreation 3 IntegrityError)
           (file_with (Database database_of_version_2))).
Proof.
  split; split.
  - exists database_without_marker. split; [reflexivity|]. discriminate.
  - unfold replaced_or_DBError. simpl. discriminate.
  - exists database_of_version_2. split; [reflexivity|]. discriminate.
  - unfold replaced_or_DBError. simpl. discriminate.
Qed.

(** * The theorems at concrete stores *)

(** The scenario of the build engine: one output, then the same
    fingerprint with two outputs. *)
Example scenario_rerecord :
  let outs1 := [("//a:build"%string, [xaa])] in
  let outs2 := [("//a:build"%string, [xbb]); ("//a:test"%string, [xcc])] in
  let '(r1, db1) := set_rule_previous_run [x01] outs1 fresh_database in
  let '(r2, db2) := set_rule_previous_run [x01] outs2 db1 in
  r1 = Ok 1 ∧ r2 = Ok 1
  ∧ fetch_target_output_fingerprint 1 "//a:build" db1 = Ok (Some [xaa])
  ∧ fetch_target_output_fingerprint 1 "//a:build" db2 = Ok (Some [xbb])
  ∧ fetch_target_output_fingerprint 1 "//a:test" db2 = Ok (Some [xcc]).
Proof. vm_compute. repeat split. Qed.

(** The engine fails at the bulk insert, after the upsert has added a row:
    the row is gone again. *)
Example engine_fault_rolls_back :
  set_rule_previous_run_under (Some (3%nat, OperationalError)) [x01]
    [("//a:build"%string, [xaa])] fresh_database
  = (Raise OperationalError, fresh_database).
Proof. reflexivity. Qed.

Lemma set_rule_previous_run_all_or_nothing_witness :
  set_rule_previous_run [x01]
    [("//a:build"%string, [xaa]); ("//a:build"%string, [xbb])]
    fresh_database
  = (Raise IntegrityError, fresh_database)
  ∧ ∀ fault f' outs' db' e,
      (set_rule_previous_run_under fault f' outs' db').1 = Raise e →
      (set_rule_previous_run_under fault f' outs' db').2 = db'.
Proof.
  apply (set_rule_previous_run_all_or_nothing [x01]
           [("//a:build"%string, [xaa]); ("//a:build"%string, [xbb])]
           fresh_database).
  - split; by eexists.
  - simpl. intros Hnd. apply NoDup_cons in Hnd as [Hin _]. apply Hin. left.
Defined.

Lemma set_rule_previous_run_twice_witness :
  ∃ r db1 db2,
    set_rule_previous_run [x01] [("//a:build"%string, [xaa])] fresh_database
    = (Ok r, db1)
    ∧ set_rule_previous_run [x01]
        [("//a:build"%string, [xbb]); ("//a:test"%string, [xcc])] db1
      = (Ok r, db2)
    ∧ rule_run db2 = rule_run db1
    ∧ (∀ t fp,
         (t, fp) ∈ [("//a:build"%string, [xbb]); ("//a:test"%string, [xcc])] →
         fetch_target_output_fingerprint r t db2 = Ok (Some fp))
    ∧ (∀ t,
         t ∉ [("//a:build"%string, [xbb]); ("//a:test"%string, [xcc])].*1 →
         fetch_target_output_fingerprint r t db2 = Ok None).
Proof.
  apply (set_rule_previous_run_twice [x01] [("//a:build"%string, [xaa])]
           [("//a:build"%string, [xbb]); ("//a:test"%string, [xcc])]
           fresh_database).
  - split; by eexists.
  - simpl. apply (bool_decide_unpack _). vm_compute. exact I.
  - simpl. apply (bool_decide_unpack _). vm_compute. exact I.
Defined.

Lemma fetch_rule_previous_run_round_trip_witness :
  (∃ r db',
     set_rule_previous_run [x01] [("//a:build"%string, [xaa])] fresh_database
     = (Ok r, db')
     ∧ fetch_rule_previous_run [x01] db' = Ok (Some r))
  ∧ ∀ g calls,
      fetch_rule_previous_run g fresh_database = Ok None →
      ¬ run_recorded g calls fresh_database →
      fetch_rule_previous_run g (replay calls fresh_database) = Ok None.
Proof.
  apply (fetch_rule_previous_run_round_trip [x01]
           [("//a:build"%string, [xaa])] fresh_database).
  - split; by eexists.
  - simpl. apply (bool_decide_unpack _). vm_compute. exact I.
Defined.

Lemma set_rule_previous_run_distinct_ids_witness :
  ∃ r1 db1 r2 db2,
    set_rule_previous_run [x01] [("//a:build"%string, [xaa])] fresh_database
    = (Ok r1, db1)
    ∧ set_rule_previous_run [x02] [("//b:build"%string, [xbb])]
        (replay [([x03], [("//c:build"%string, [xcc])])] db1)
      = (Ok r2, db2)
    ∧ r1 ≠ r2.
Proof.
  apply (set_rule_previous_run_distinct_ids [x01] [x02]
           [("//a:build"%string, [xaa])] [("//b:build"%string, [xbb])]
           [([x03], [("//c:build"%string, [xcc])])] fresh_database).
  - split; by eexists.
  - intros rows Hrows. injection Hrows as <-. simpl. constructor.
  - discriminate.
  - simpl. apply (bool_decide_unpack _). vm_compute. exact I.
  - simpl. apply (bool_decide_unpack _). vm_compute. exact I.
Defined.

Lemma fetch_target_output_fingerprint_never_recorded_witness :
  fetch_target_output_fingerprint 1 "//a:test"
    (replay [([x01], [("//a:build"%string, [xaa])]);
             ([x02], [("//a:test"%string, [xbb])])] fresh_database)
  = Ok None.
Proof.
  apply (fetch_target_output_fingerprint_never_recorded 1 "//a:test"
           [([x01], [("//a:build"%string, [xaa])]);
            ([x02], [("//a:test"%string, [xbb])])] fresh_database).
  - reflexivity.
  - simpl. intros [[_ Hin]|[[Hret _]|[]]].
    + apply list_elem_of_singleton in Hin. discriminate.
    + vm_compute in Hret. discriminate.
Defined.

Lemma set_rule_previous_run_frame_witness :
  let db := database_of_version_2 in
  let db' :=
    (set_rule_previous_run [x02] [("//b:build"%string, [xbb])] db).2 in
  version db' = version db
  ∧ ∃ rows rows' tos tos',
      rule_run db = Some rows ∧ rule_run db' = Some rows'
      ∧ target_output db = Some tos ∧ target_output db' = Some tos'
      ∧ filter (λ x, rr_fingerprint x ≠ [x02]) rows'
        = filter (λ x, rr_fingerprint x ≠ [x02]) rows
      ∧ filter (λ x, to_run x ≠ 2) tos' = filter (λ x, to_run x ≠ 2) tos.
Proof.
  apply (set_rule_previous_run_frame [x02] [("//b:build"%string, [xbb])]
           database_of_version_2 _ 2).
  reflexivity.
Defined.

Lemma init_or_reset_db_replaces_incompatible_witness :
  let out :=
    init_or_reset_db no_faults (file_with (Database database_of_version_2)) in
  (next_con (file_with (Database database_of_version_2)) ∉ open_cons out.2)
  ∧ (∀ e, f_unlink no_faults = Some e → is_FileNotFoundError e = false →
       out.1 = Raise (IsengardDBError CannotDelete e)
       ∧ file out.2 = file (file_with (Database database_of_version_2)))
  ∧ (deletion_passed no_faults = true → recreation_fault no_faults = None →
       ∃ con, out.1 = Ok con ∧ con ∈ open_cons out.2
              ∧ file out.2 = Some (Database fresh_database))
  ∧ (deletion_passed no_faults = true →
       ∀ e, recreation_fault no_faults = Some e →
         is_OperationalError e = true →
         out.1 = Raise (IsengardDBError CannotRecreate e)).
Proof.
  apply (init_or_reset_db_replaces_incompatible no_faults
           (file_with (Database database_of_version_2))
           (Database database_of_version_2)).
  - reflexivity.
  - reflexivity.
  - exists database_of_version_2. split; [reflexivity|].
    right. exists 2. split; [reflexivity|]. discriminate.
Defined.

Lemma init_or_reset_db_marker_row_missing_witness :
  init_or_reset_db no_faults (file_with (Database database_without_marker))
  = (Raise TypeError,
     {| file := Some (Database database_without_marker);
        open_cons := [0%nat]; next_con := 1%nat |}).
Proof.
  apply (init_or_reset_db_marker_row_missing no_faults [] 0%nat
           database_without_marker).
  - reflexivity.
  - reflexivity.
Defined.

Lemma connect_recreation_failure_leaves_connection_open_witness :
  let out :=
    connect (fault_in_recreation 0 OperationalError)
      (λ _ : Connection, io_ret ()) no_file in
  out.1 = Raise (IsengardDBError CannotRecreate OperationalError)
  ∧ 1%nat ∈ open_cons out.2.
Proof.
  apply (connect_recreation_failure_leaves_connection_open
           (λ _ : Connection, io_ret ())
           (fault_in_recreation 0 OperationalError) no_file 0
           OperationalError).
  - reflexivity.
  - exists empty_database. split; [reflexivity|]. by left.
  - reflexivity.
  - reflexivity.
  - reflexivity.
  - simpl. lia.
Defined.

(** * Further properties of opening *)

Section OpeningOutcomes.

Implicit Types (flt : faults) (w : world) (db : database).
Implicit Types (cons : list Connection) (m : Connection).

(** The world after the first connect. *)
Lemma init_or_reset_db_connect_fails flt w e :
  f_connect flt = Some e →
  init_or_reset_db flt w
  = (if is_OperationalError e
     then Raise (IsengardDBError CannotOpen e) else Raise e, w).
Proof.
  intros Hfc. unfold init_or_reset_db. rewrite Hfc.
  unfold io_bind at 1. unfold io_try at 1. unfold sqlite3_connect at 1.
  by destruct (is_OperationalError e).
Qed.

Lemma init_or_reset_db_unreadable flt fl cons m :
  f_connect flt = None → opened fl = NotADatabase →
  init_or_reset_db flt {| file := fl; open_cons := cons; next_con := m |}
  = (Raise DatabaseError,
     {| file := Some NotADatabase; open_cons := m :: cons; next_con := S m |}).
Proof.
  intros Hfc Hfl. unfold init_or_reset_db. rewrite Hfc.
  unfold io_bind at 1. unfold io_try at 1. unfold sqlite3_connect at 1.
  cbv beta iota. simpl file. simpl open_cons. simpl next_con. rewrite Hfl.
  unfold io_bind at 1. unfold io_try at 1. unfold io_bind at 1.
  unfold con_execute at 1. simpl. by rewrite decide_True by (by left).
Qed.

(** What the optimistic check can read from a database. *)
Lemma marker_value_cases db :
  (version db = None ∧ marker_value db = Raise OperationalError)
  ∨ (∃ o, is_Some (version db) ∧ marker_value db = Ok o).
Proof.
  unfold marker_value, query, SQL_FETCH_VERSION_ROW.
  destruct (version db); [right|left]; eauto.
Qed.

(** A marker can only be read from a file that was there. *)
Lemma opened_with_version fl db :
  opened fl = Database db → is_Some (version db) → fl = Some (Database db).
Proof.
  destruct fl as [c|]; simpl; [by intros ->|].
  intros [= <-] [? ?]. done.
Qed.

(** The check on a file whose [version] table has no marker row. *)
Lemma init_or_reset_db_no_row flt cons m db :
  f_connect flt = None → marker_value db = Ok None →
  init_or_reset_db flt
    {| file := Some (Database db); open_cons := cons; next_con := m |}
  = (Raise TypeError,
     {| file := Some (Database db); open_cons := m :: cons;
        next_con := S m |}).
Proof.
  intros Hfc Hmv. unfold init_or_reset_db. rewrite Hfc.
  unfold io_bind at 1. unfold io_try at 1. unfold sqlite3_connect at 1.
  cbv beta iota. simpl file. simpl open_cons. simpl next_con.
  change (opened (Some (Database db))) with (Database db).
  unfold io_bind at 1. unfold io_try at 1. unfold io_bind at 1.
  rewrite con_execute_open by (by left).
  unfold marker_value, query in Hmv. unfold SQL_FETCH_VERSION_ROW in *.
  destruct (version db) as [rows|]; [|done]. simplify_eq/=.
  by rewrite Hmv.
Qed.

(** Every outcome of [init_or_reset_db]: either a connection, open, on a
    file whose marker reads the current version and that is the file as it
    was or the fresh store; or an exception that is not a bare
    [OperationalError]. *)
Lemma init_or_reset_db_outcome flt w :
  (∃ con db,
     (init_or_reset_db flt w).1 = Ok con
     ∧ con ∈ open_cons (init_or_reset_db flt w).2
     ∧ file (init_or_reset_db flt w).2 = Some (Database db)
     ∧ marker_value db = Ok (Some DB_VERSION)
     ∧ (file w = Some (Database db) ∨ db = fresh_database))
  ∨ (∃ e, (init_or_reset_db flt w).1 = Raise e
          ∧ is_OperationalError e = false).
Proof.
  destruct w as [fl cons m].
  destruct (f_connect flt) as [e|] eqn:Hfc.
  { right. rewrite (init_or_reset_db_connect_fails flt _ e Hfc).
    destruct (is_OperationalError e) eqn:He; eauto. }
  destruct (opened fl) as [|db] eqn:Hfl.
  { right. rewrite (init_or_reset_db_unreadable flt fl cons m Hfc Hfl). eauto. }
  assert ((version db = None
           ∨ (∃ v, marker_value db = Ok (Some v) ∧ v ≠ DB_VERSION))
          ∨ (fl = Some (Database db)
             ∧ (marker_value db = Ok None
                ∨ marker_value db = Ok (Some DB_VERSION))))
    as [Hreset|[-> Hread]].
  { destruct (marker_value_cases db) as [[? _]|([v|] & Hv & Hmv)]; [auto| |].
    - destruct (decide (v = DB_VERSION)) as [->|]; [|by eauto].
      right. split; [by apply opened_with_version|auto].
    - right. split; [by apply opened_with_version|auto]. }
  - rewrite (init_or_reset_db_reset flt fl cons m db Hfc Hfl Hreset).
    destruct (recreate_outcome flt cons m) as (w' & Heq & _ & Hopen & Hfile).
    assert (recreation_fault flt = None → f_reconnect flt = None) as Hrc.
    { unfold recreation_fault. by destruct (f_reconnect flt). }
    destruct (f_unlink flt) as [e|]; [destruct (is_FileNotFoundError e)|];
      [|right; simpl; by eauto|]; rewrite Heq; simpl;
      (destruct (recreation_fault flt) as [e'|] eqn:Hf;
       [right; destruct (is_OperationalError e') eqn:He; by eauto
       |left; exists (S m), fresh_database; split_and!; auto]).
  - destruct Hread as [Hmv|Hmv].
    + right. rewrite (init_or_reset_db_no_row flt cons m db Hfc Hmv). eauto.
    + left. rewrite (init_or_reset_db_compatible flt cons m db Hfc Hmv).
      exists m, db. simpl. split_and!; auto. by left.
Qed.

End OpeningOutcomes.

Section Sessions.

Implicit Types (flt : faults) (w : world) (db : database).
Implicit Types (f : bytes) (outs : list (ResolvedTargetID * bytes)).

Lemma on_con_open {A} (con : Connection)
    (method : database → result A * database) w db :
  con ∈ open_cons w → file w = Some (Database db) →
  on_con con method w
  = ((method db).1,
     {| file := Some (Database (method db).2); open_cons := open_cons w;
        next_con := next_con w |}).
Proof.
  intros Hin Hfile. unfold on_con. rewrite decide_True by done.
  by rewrite Hfile.
Qed.

Lemma on_con_closed {A} (con : Connection)
    (method : database → result A * database) w :
  con ∉ open_cons w → on_con con method w = (Raise ProgrammingError, w).
Proof. intros Hin. unfold on_con. by rewrite decide_False. Qed.

(** The block of [DB.connect] once [init_or_reset_db] has returned. *)
Lemma connect_after_init {A} flt (body : Connection → io A) w con w1 :
  init_or_reset_db flt w = (Ok con, w1) →
  connect flt body w
  = ((body con w1).1,
     {| file := file (body con w1).2;
        open_cons := filter (λ c, c ≠ con) (open_cons (body con w1).2);
        next_con := next_con (body con w1).2 |}).
Proof.
  intros Hinit. unfold connect, io_bind, io_finally. rewrite Hinit.
  by destruct (body con w1) as [r w2].
Qed.

(** What a returned connection is open on. *)
Lemma init_or_reset_db_ok_inv flt w con w1 :
  init_or_reset_db flt w = (Ok con, w1) →
  con ∈ open_cons w1
  ∧ ∃ db, file w1 = Some (Database db)
          ∧ marker_value db = Ok (Some DB_VERSION)
          ∧ (file w = Some (Database db) ∨ db = fresh_database).
Proof.
  intros Hinit.
  destruct (init_or_reset_db_outcome flt w)
    as [(con' & db & Hres & Hopen & Hfile & Hmv & Hor)|(e & Hres & _)];
    rewrite Hinit in *; simplify_eq/=; eauto.
Qed.

Lemma marker_value_same_version db db' :
  version db' = version db → marker_value db' = marker_value db.
Proof.
  intros Hv. unfold marker_value, query, SQL_FETCH_VERSION_ROW.
  rewrite Hv. by destruct (version db).
Qed.

End Sessions.

(** X1. Whatever fails underneath, a connection that [init_or_reset_db]
    returns is open, and the file it is open on has a marker of the current
    version and is either the file as it was found or the fresh store. *)
Theorem init_or_reset_db_returns_ready
    (flt : faults) (w w1 : world) (con : Connection) :
  init_or_reset_db flt w = (Ok con, w1) →
  con ∈ open_cons w1
  ∧ ∃ db, file w1 = Some (Database db)
          ∧ marker_value db = Ok (Some DB_VERSION)
          ∧ (file w = Some (Database db) ∨ db = fresh_database).
Proof. apply init_or_reset_db_ok_inv. Qed.

(** X2. [init_or_reset_db] never lets an [OperationalError] through as it
    is: whatever the file and whatever fails underneath, what it raises is
    something else ([IsengardDBError] in its place). *)
Theorem init_or_reset_db_never_raises_OperationalError
    (flt : faults) (w : world) :
  (init_or_reset_db flt w).1 ≠ Raise OperationalError.
Proof.
  destruct (init_or_reset_db_outcome flt w)
    as [(con & db & Hres & _)|(e & Hres & He)]; rewrite Hres.
  - discriminate.
  - intros [= ->]. discriminate.
Qed.


(** X4. [DB.connect].  When [init_or_reset_db] raises, [DB.connect] raises
    the same and the body of the block is not run.  When it returns a
    connection, the outcome of [DB.connect] is the outcome of the body,
    returned or raised; the file is as the body left it; the connection is
    closed; and every method called on it afterwards raises
    [ProgrammingError] and changes nothing. *)
Theorem connect_outcome {A} (flt : faults) (body : Connection → io A)
    (w : world) :
  match init_or_reset_db flt w with
  | (Ok con, w1) =>
      (connect flt body w).1 = (body con w1).1
      ∧ file (connect flt body w).2 = file (body con w1).2
      ∧ (con ∉ open_cons (connect flt body w).2)
      ∧ ∀ f outs,
          DB_set_rule_previous_run con f outs (connect flt body w).2
          = (Raise ProgrammingError, (connect flt body w).2)
  | (Raise e, w1) => connect flt body w = (Raise e, w1)
  end.
Proof.
  destruct (init_or_reset_db flt w) as [[con|e] w1] eqn:Hinit.
  - rewrite (connect_after_init flt body w con w1 Hinit). simpl.
    assert (con ∉ filter (λ c, c ≠ con) (open_cons (body con w1).2)) as Hcl
      by (by intros [? _]%list_elem_of_filter).
    split_and!; [done|done|done|].
    intros f outs. by apply on_con_closed.
  - unfold connect, io_bind. by rewrite Hinit.
Qed.

(** X5. What one session records, the next one finds.  If opening a
    location gives a store with both tables, then a [DB.connect] block that
    records a run (targets distinct) returns its id, and a later
    [DB.connect] block on the same location that asks for the fingerprint
    gets that id, with nothing failing underneath. *)
Theorem recorded_run_survives_reopen
    (f : bytes) (outs : list (ResolvedTargetID * bytes))
    (w w1 : world) (con : Connection) (db : database) :
  init_or_reset_db no_faults w = (Ok con, w1) →
  file w1 = Some (Database db) → has_tables db → NoDup outs.*1 →
  ∃ r wa wb,
    connect no_faults (λ c, DB_set_rule_previous_run c f outs) w
    = (Ok r, wa)
    ∧ connect no_faults (λ c, DB_fetch_rule_previous_run c f) wa
      = (Ok (Some r), wb).
Proof.
  intros Hinit Hfile [[rows Hrr] [tos Hto]] Hnd.
  destruct (init_or_reset_db_ok_inv _ _ _ _ Hinit)
    as (Hopen & db0 & Hfile0 & Hmv & _).
  rewrite Hfile in Hfile0. simplify_eq.
  destruct (set_rule_previous_run_ok f outs db0 rows tos Hrr Hto Hnd)
    as (new & Hcall & _).
  set (r := resolved_run_id f rows) in *.
  set (db1 := {| version := version db0; rule_run := Some (upserted f rows);
                 target_output := _ |}) in Hcall.
  rewrite (connect_after_init _ _ w con w1 Hinit).
  unfold DB_set_rule_previous_run.
  rewrite (on_con_open con _ w1 db0 Hopen Hfile). rewrite Hcall. simpl.
  eexists r, _, _. split; [done|].
  set (wa := {| file := Some (Database db1);
                open_cons := filter (λ c, c ≠ con) (open_cons w1);
                next_con := next_con w1 |}).
  assert (init_or_reset_db no_faults wa
          = (Ok (next_con w1),
             {| file := Some (Database db1);
                open_cons := next_con w1 :: open_cons wa;
                next_con := S (next_con w1) |})) as Hinit2.
  { apply init_or_reset_db_compatible; [done|].
    by rewrite (marker_value_same_version db0 db1). }
  rewrite (connect_after_init _ _ wa _ _ Hinit2).
  unfold DB_fetch_rule_previous_run.
  erewrite on_con_open; [|by left|done]. simpl.
  erewrite fetch_rule_previous_run_rows; [|done].
  by rewrite fetch_after_upsert.
Qed.

(** X6. Nothing of an incompatible store is seen after opening.  On a
    location without file, without [version] table or with another version
    in its marker, and with nothing failing underneath, a [DB.connect]
    block that looks up any fingerprint, or any output of any run, gets
    [None]. *)
Theorem nothing_survives_reset (w : world) :
  version_table_absent_or_marker_incorrect (opened (file w)) →
  (∀ f, ∃ wa,
     connect no_faults (λ c, DB_fetch_rule_previous_run c f) w
     = (Ok None, wa))
  ∧ (∀ r t, ∃ wa,
       connect no_faults (λ c, DB_fetch_target_output_fingerprint c r t) w
       = (Ok None, wa)).
Proof.
  destruct w as [fl cons m]. simpl. intros (db & Hfl & Hstale).
  assert (∃ w1, init_or_reset_db no_faults
                  {| file := fl; open_cons := cons; next_con := m |}
                = (Ok (S m), w1)
                ∧ S m ∈ open_cons w1
                ∧ file w1 = Some (Database fresh_database))
    as (w1 & Hinit & Hopen & Hfile).
  { rewrite (init_or_reset_db_reset no_faults fl cons m db eq_refl Hfl Hstale).
    destruct (recreate_outcome no_faults cons m)
      as (w1 & Heq & _ & Hopen & Hfile).
    exists w1. simpl in *. rewrite Heq. auto. }
  split.
  - intros f. rewrite (connect_after_init _ _ _ _ _ Hinit).
    unfold DB_fetch_rule_previous_run.
    rewrite (on_con_open _ _ w1 fresh_database Hopen Hfile). simpl. eauto.
  - intros r t. rewrite (connect_after_init _ _ _ _ _ Hinit).
    unfold DB_fetch_target_output_fingerprint.
    rewrite (on_con_open _ _ w1 fresh_database Hopen Hfile). simpl. eauto.
Qed.

(** X7. The optimistic check looks at the marker only.  A file whose marker
    holds the current version but which lacks the [rule_run] or the
    [target_output] table is accepted as it is, and recording a run on it
    raises [OperationalError]; the file still holds what it held. *)
Theorem compatible_marker_without_tables
    (f : bytes) (outs : list (ResolvedTargetID * bytes))
    (w : world) (db : database) :
  file w = Some (Database db) → marker_value db = Ok (Some DB_VERSION) →
  ¬ has_tables db →
  ∃ wa,
    connect no_faults (λ c, DB_set_rule_previous_run c f outs) w
    = (Raise OperationalError, wa)
    ∧ file wa = file w.
Proof.
  destruct w as [fl cons m]. simpl. intros -> Hmv Hnt.
  rewrite (connect_after_init _ _ _ _ _
             (init_or_reset_db_compatible no_faults cons m db eq_refl Hmv)).
  unfold DB_set_rule_previous_run.
  erewrite on_con_open; [|by left|done].
  rewrite (set_rule_previous_run_no_tables f outs db Hnt). simpl. eauto.
Qed.

(** * Further properties of the store *)

Section Constraints.

Implicit Types (f : bytes) (outs : list (ResolvedTargetID * bytes)).
Implicit Types (db : database) (rows : list rule_run_row).
Implicit Types (tos : list target_output_row).

Lemma NoDup_fmap_filter {A B} (h : A → B) (P : A → Prop)
    `{∀ x, Decision (P x)} (l : list A) :
  NoDup (h <$> l) → NoDup (h <$> filter P l).
Proof.
  induction l as [|a l IH]; [done|].
  rewrite fmap_cons. intros [Ha Hnd]%NoDup_cons.
  rewrite filter_cons. case_decide; [|by apply IH].
  rewrite fmap_cons. apply NoDup_cons. split; [|by apply IH].
  intros (x & Hx & [_ Hin]%list_elem_of_filter)%list_elem_of_fmap.
  apply Ha. rewrite Hx. by apply list_elem_of_fmap_2.
Qed.

Lemma upserted_fingerprints_unique f rows :
  NoDup (rr_fingerprint <$> rows) →
  NoDup (rr_fingerprint <$> upserted f rows).
Proof.
  intros Hnd. unfold upserted. case_decide as Hf; [done|].
  rewrite fmap_app. apply NoDup_app. split_and!; [done| |apply NoDup_singleton].
  intros g Hg Hnew. simpl in Hnew.
  apply list_elem_of_singleton in Hnew as ->. done.
Qed.

(** The bulk insert keeps both keys of [target_output], and what it adds
    belongs to run [r]. *)
Lemma executemany_insert_keeps (r : Z) outs : ∀ db db' tos,
  target_output db = Some tos →
  executemany SQL_INSERT_TARGET_OUTPUT ((λ o, (r, o.1, o.2)) <$> outs) db
  = Ok ((), db') →
  ∃ tos',
    db' = set_target_output tos' db
    ∧ (NoDup (to_id <$> tos) → NoDup (to_id <$> tos'))
    ∧ (NoDup ((λ x, (to_run x, to_target x)) <$> tos) →
       NoDup ((λ x, (to_run x, to_target x)) <$> tos'))
    ∧ ∀ row, row ∈ tos' → row ∈ tos ∨ to_run row = r.
Proof.
  induction outs as [|o outs IH]; intros db db' tos Htos Hex.
  - simpl in Hex. unfold sql_ret in Hex. simplify_eq.
    exists tos. rewrite set_target_output_same by done. auto.
  - rewrite fmap_cons in Hex. simpl in Hex.
    unfold sql_bind at 1 in Hex. unfold SQL_INSERT_TARGET_OUTPUT at 1 in Hex.
    rewrite Htos in Hex. case_decide as Hkey; [done|].
    set (row := {| to_id := next_rowid (to_id <$> tos); to_run := r;
                   to_target := o.1; to_fingerprint := o.2 |}) in Hex.
    destruct (IH (set_target_output (tos ++ [row]) db) db' (tos ++ [row])
                eq_refl Hex)
      as (tos' & -> & Hids & Hkeys & Hrun).
    exists tos'. rewrite set_target_output_twice. split_and!; [done| | |].
    + intros Hnd. apply Hids. rewrite fmap_app. apply NoDup_app.
      split_and!; [done| |apply NoDup_singleton].
      intros i Hi Hnew. simpl in Hnew.
      apply list_elem_of_singleton in Hnew as ->.
      by apply next_rowid_fresh in Hi.
    + intros Hnd. apply Hkeys. rewrite fmap_app. apply NoDup_app.
      split_and!; [done| |apply NoDup_singleton].
      intros k Hk Hnew. simpl in Hnew.
      apply list_elem_of_singleton in Hnew as ->. done.
    + intros x [[Hx|Hx]%elem_of_app|Hx]%Hrun; [by left| |by right].
      apply list_elem_of_singleton in Hx as ->. by right.
Qed.

(** One call, returning or raising, keeps the constraints. *)
Lemma set_rule_previous_run_keeps_constraints f outs db :
  schema_constraints db →
  schema_constraints (set_rule_previous_run f outs db).2.
Proof.
  intros (rows & tos & Hrr & Hto & Hid & Hfp & Htid & Hkey & Hfk).
  rewrite (set_rule_previous_run_unfold f outs db rows tos Hrr Hto).
  cbv zeta. set (r := resolved_run_id f rows).
  set (db3 := {| version := version db; rule_run := Some (upserted f rows);
                 target_output := Some (filter (λ x, to_run x ≠ r) tos) |}).
  destruct (executemany _ _ db3) as [[[] db4]|e] eqn:Hex; simpl;
    [|by exists rows, tos].
  destruct (executemany_insert_keeps r outs db3 db4
              (filter (λ x, to_run x ≠ r) tos) eq_refl Hex)
    as (tos' & -> & Hids' & Hkeys' & Hrun).
  destruct (upserted_extends f rows) as (extra & Hup & Hnd).
  exists (upserted f rows), tos'. split_and!; [done|done| | | | |].
  - rewrite Hup. by apply Hnd.
  - by apply upserted_fingerprints_unique.
  - by apply Hids', NoDup_fmap_filter.
  - by apply Hkeys', (NoDup_fmap_filter (λ x, (to_run x, to_target x))).
  - intros row [[_ Hin]%list_elem_of_filter| ->]%Hrun.
    + rewrite Hup, fmap_app. apply elem_of_app. left. by apply Hfk.
    + destruct (resolved_row f rows) as (row' & Hin' & _ & Hr).
      unfold r. rewrite <- Hr. by apply list_elem_of_fmap_2.
Qed.

End Constraints.

(** X8. The constraints that the schema declares are kept by the code
    itself: both primary keys, the uniqueness of fingerprints and of
    (run, target) pairs, and the reference from every output row to a run
    row hold after any history of calls, returning or raising, on a store
    in which they held. *)
Theorem replay_keeps_schema_constraints (calls : list call) (db : database) :
  schema_constraints db → schema_constraints (replay calls db).
Proof.
  revert db. induction calls as [|c calls IH]; intros db Hc; [done|].
  simpl. by apply IH, set_rule_previous_run_keeps_constraints.
Qed.

Section Stability.

Implicit Types (f g : bytes) (outs : list (ResolvedTargetID * bytes)).
Implicit Types (db : database) (rows : list rule_run_row).

Lemma head_filter_app_l {A B} (h : A → B) (P : A → Prop)
    `{∀ x, Decision (P x)} (l l' : list A) y :
  head (h <$> filter P l) = Some y →
  head (h <$> filter P (l ++ l')) = Some y.
Proof.
  rewrite filter_app, fmap_app. by destruct (h <$> filter P l).
Qed.

Lemma resolved_run_id_head f rows r :
  head (rr_id <$> filter (λ x, rr_fingerprint x = f) rows) = Some r →
  resolved_run_id f rows = r ∧ upserted f rows = rows.
Proof.
  intros Hhead. unfold resolved_run_id, upserted.
  destruct (filter (λ x, rr_fingerprint x = f) rows) as [|row l] eqn:Hfil;
    simplify_eq/=.
  split; [done|]. rewrite decide_True; [done|].
  assert (row ∈ filter (λ x, rr_fingerprint x = f) rows)
    as [<- Hin]%list_elem_of_filter by (rewrite Hfil; left).
  by apply list_elem_of_fmap_2.
Qed.

(** The run table after a returning call and any further calls still
    answers the fingerprint with the id that the call returned. *)
Lemma replay_after_set f outs db r db1 calls :
  set_rule_previous_run f outs db = (Ok r, db1) →
  ∃ rows,
    rule_run (replay calls db1) = Some rows
    ∧ is_Some (target_output (replay calls db1))
    ∧ head (rr_id <$> filter (λ x, rr_fingerprint x = f) rows) = Some r.
Proof.
  intros (rows & tos & new & _ & _ & _ & -> & -> & _)
    %set_rule_previous_run_inv.
  edestruct (replay_extends calls) as (extra & Hrr & _ & Hto);
    [| |exists (upserted f rows ++ extra); split_and!; [exact Hrr|exact Hto|]].
  - reflexivity.
  - by eexists.
  - apply head_filter_app_l, fetch_after_upsert.
Qed.

(** A call with another fingerprint, or one that repeats a target, leaves
    the outputs of a run alone. *)
Lemma fetch_target_output_fingerprint_other_fingerprint
    f r t v g outs db rows :
  rule_run db = Some rows → NoDup (rr_id <$> rows) →
  (∃ row, row ∈ rows ∧ rr_fingerprint row = f ∧ rr_id row = r) →
  fetch_target_output_fingerprint r t db = Ok v →
  g ≠ f ∨ ¬ NoDup outs.*1 →
  fetch_target_output_fingerprint r t (set_rule_previous_run g outs db).2
  = Ok v.
Proof.
  intros Hrr Hnd (row & Hin & Hf & Hr) Hv Hor.
  destruct (set_rule_previous_run g outs db) as [[r'|e] db'] eqn:Hcall.
  - simpl. rewrite <- Hv.
    apply (fetch_other_run_after_set g outs db r' db' r t Hcall).
    apply set_rule_previous_run_inv in Hcall
      as (rows' & _ & _ & Hrr' & _ & Hnd_outs & -> & _).
    destruct Hor as [Hne|?]; [|done].
    rewrite Hrr in Hrr'. injection Hrr' as <-.
    destruct (resolved_row g rows) as (row2 & Hin2 & Hg & Hr2).
    destruct (upserted_extends g rows) as (extra & Hup & Hnd').
    intros Heq. apply Hne. rewrite <- Hg, <- Hf.
    f_equal. symmetry.
    apply (NoDup_fmap_elem_inj rr_id (upserted g rows));
      [rewrite Hup; by apply Hnd'
      |rewrite Hup; apply elem_of_app; by left|done|congruence].
  - pose proof (set_rule_previous_run_raise g outs db e) as Hsame.
    rewrite Hcall in Hsame. simpl in *. by rewrite Hsame.
Qed.

End Stability.

(** X9. A run keeps its id.  Once a call has returned [r] for a
    fingerprint, then after any further calls (for any fingerprints,
    returning or raising) [fetch_rule_previous_run] of that fingerprint
    still returns [r], and recording the fingerprint again (targets
    distinct) returns [r] again. *)
Theorem run_id_is_stable
    (f : bytes) (outs outs' : list (ResolvedTargetID * bytes))
    (calls : list call) (db db1 : database) (r : RuleRunID) :
  set_rule_previous_run f outs db = (Ok r, db1) → NoDup outs'.*1 →
  fetch_rule_previous_run f (replay calls db1) = Ok (Some r)
  ∧ (set_rule_previous_run f outs' (replay calls db1)).1 = Ok r.
Proof.
  intros Hcall Hnd.
  destruct (replay_after_set f outs db r db1 calls Hcall)
    as (rows & Hrr & [tos Hto] & Hhead).
  split.
  - by rewrite (fetch_rule_previous_run_rows f _ rows Hrr), Hhead.
  - destruct (set_rule_previous_run_ok f outs' _ rows tos Hrr Hto Hnd)
      as (new & -> & _).
    simpl. by destruct (resolved_run_id_head f rows r Hhead) as [-> _].
Qed.

(** X10. The last returning call for a run is what its lookups show.  On a
    store whose run ids are pairwise distinct, after a call for [f] has
    returned [r], any further calls that are for other fingerprints, or
    that repeat a target (and so raise), leave every lookup of run [r] at
    what the call for [f] recorded. *)
Theorem outputs_survive_other_calls
    (f : bytes) (outs : list (ResolvedTargetID * bytes))
    (calls : list call) (db db1 : database) (r : RuleRunID)
    (t : ResolvedTargetID) :
  rule_run_ids_unique db →
  set_rule_previous_run f outs db = (Ok r, db1) →
  (∀ c, c ∈ calls → c.1 ≠ f ∨ ¬ NoDup c.2.*1) →
  fetch_target_output_fingerprint r t (replay calls db1)
  = Ok (output_of t outs).
Proof.
  intros Huniq Hcall Hother.
  pose proof (fetch_after_set f outs db r db1 t Hcall) as Hv.
  apply set_rule_previous_run_inv in Hcall
    as (rows & tos & new & Hrr & _ & _ & -> & -> & _).
  destruct (resolved_row f rows) as (row & Hin & Hf & Hr).
  destruct (upserted_extends f rows) as (extra & Hup & Hnd).
  assert (NoDup (rr_id <$> upserted f rows)) as Hnd1
    by (rewrite Hup; by apply Hnd, Huniq).
  set (db1 := {| version := version db; rule_run := Some (upserted f rows);
                 target_output := _ |}) in *.
  assert (rule_run db1 = Some (upserted f rows)) as Hrr1 by done.
  clearbody db1. clear Hup Hnd Hrr Huniq.
  revert db1 Hv Hrr1 Hin Hnd1. generalize (upserted f rows) as rows1.
  induction calls as [|c calls IH]; intros rows1 d Hv Hrr1 Hin Hnd1; [done|].
  simpl.
  assert (c.1 ≠ f ∨ ¬ NoDup c.2.*1) as Hne by (apply Hother; by left).
  destruct (set_rule_previous_run_extends c.1 c.2 d rows1 Hrr1)
    as (extra1 & Hrr2 & Hnd2 & _).
  apply (IH (λ c' Hc', Hother c' (list_elem_of_further _ _ _ Hc'))
           (rows1 ++ extra1)).
  - apply (fetch_target_output_fingerprint_other_fingerprint
             f (resolved_run_id f rows) t _ c.1 c.2 d rows1); eauto.
  - done.
  - apply elem_of_app. by left.
  - by apply Hnd2.
Qed.

Section PointLookups.

Lemma head_fmap {A B} (h : A → B) (l : list A) :
  head (h <$> l) = h <$> head l.
Proof. by destruct l. Qed.

(** Under a UNIQUE key, the first row that a WHERE clause on the key finds
    is the only row with that key. *)
Lemma head_filter_unique {A K} (key : A → K) (P : A → Prop)
    `{∀ x, Decision (P x)} (k : K) (l : list A) (x : A) :
  (∀ y, P y ↔ key y = k) → NoDup (key <$> l) →
  head (filter P l) = Some x ↔ x ∈ l ∧ key x = k.
Proof.
  intros HP Hnd. split.
  - intros Hhead.
    assert (x ∈ filter P l) as [HPx Hin]%list_elem_of_filter.
    { destruct (filter P l); simplify_eq/=. left. }
    split; [done|]. by apply HP.
  - intros [Hin Hk]. induction l as [|a l IH]; [by apply elem_of_nil in Hin|].
    rewrite fmap_cons in Hnd. apply NoDup_cons in Hnd as [Ha Hnd].
    rewrite filter_cons. case_decide as HPa.
    + simpl. f_equal. apply elem_of_cons in Hin as [->|Hin]; [done|].
      exfalso. apply Ha. apply HP in HPa. rewrite HPa, <- Hk.
      by apply list_elem_of_fmap_2.
    + apply elem_of_cons in Hin as [->|Hin]; [|by apply IH].
      exfalso. by apply HPa, HP.
Qed.

End PointLookups.


(** X12. The lookups are point lookups.  Where fingerprints are unique in
    [rule_run], [fetch_rule_previous_run] returns [r] for [f] exactly when
    the table holds the row ([r], [f]); where (run, target) pairs are unique
    in [target_output], [fetch_target_output_fingerprint] returns [fp] for
    ([r], [t]) exactly when the table holds a row ([r], [t], [fp]). *)
Theorem lookups_find_the_rows
    (db : database) (rows : list rule_run_row)
    (tos : list target_output_row) :
  rule_run db = Some rows → target_output db = Some tos →
  NoDup (rr_fingerprint <$> rows) →
  NoDup ((λ x, (to_run x, to_target x)) <$> tos) →
  (∀ f r,
     fetch_rule_previous_run f db = Ok (Some r)
     ↔ {| rr_id := r; rr_fingerprint := f |} ∈ rows)
  ∧ (∀ r t fp,
       fetch_target_output_fingerprint r t db = Ok (Some fp)
       ↔ ∃ i, {| to_id := i; to_run := r; to_target := t;
                 to_fingerprint := fp |} ∈ tos).
Proof.
  intros Hrr Hto Hfp Hkey. split.
  - intros f r. rewrite (fetch_rule_previous_run_rows f db rows Hrr).
    rewrite head_fmap. split.
    + intros [= Hhead].
      destruct (head (filter _ rows)) as [[i g]|] eqn:Hrow; simplify_eq/=.
      apply (head_filter_unique rr_fingerprint _ f) in Hrow as [Hin Hf];
        [|done|done].
      simpl in Hf. by subst g.
    + intros Hin.
      assert (head (filter (λ x, rr_fingerprint x = f) rows)
              = Some {| rr_id := r; rr_fingerprint := f |}) as ->; [|done].
      by apply (head_filter_unique rr_fingerprint _ f).
  - intros r t fp.
    rewrite (fetch_target_output_fingerprint_rows r t db tos Hto).
    rewrite head_fmap.
    assert (∀ y : target_output_row,
              to_run y = r ∧ to_target y = t
              ↔ (to_run y, to_target y) = (r, t)) as HP
      by (intros y; split; [by intros [-> ->]|by intros [= -> ->]]).
    split.
    + intros [= Hhead].
      destruct (head (filter _ tos)) as [[i r' t' fp']|] eqn:Hrow;
        simplify_eq/=.
      apply (head_filter_unique (λ x, (to_run x, to_target x)) _ (r, t))
        in Hrow as [Hin [= -> ->]]; [|done|done].
      by exists i.
    + intros [i Hin].
      assert (head (filter (λ x, to_run x = r ∧ to_target x = t) tos)
              = Some {| to_id := i; to_run := r; to_target := t;
                        to_fingerprint := fp |}) as ->; [|done].
      by apply (head_filter_unique (λ x, (to_run x, to_target x)) _ (r, t)).
Qed.

(** X13. The three outcomes of [set_rule_previous_run], and no other: on a
    store with both tables it returns when the targets are distinct and
    raises [IntegrityError] when one is repeated; on a store that lacks a
    table it raises [OperationalError]; whenever it raises, the store is
    the one before.  In particular the SELECT of step 2 always finds the
    row that the upsert left: [row[0]] never fails. *)
Theorem set_rule_previous_run_outcomes
    (f : bytes) (outs : list (ResolvedTargetID * bytes)) (db : database) :
  (has_tables db ∧ NoDup outs.*1
   ∧ ∃ r db', set_rule_previous_run f outs db = (Ok r, db'))
  ∨ (has_tables db ∧ ¬ NoDup outs.*1
     ∧ set_rule_previous_run f outs db = (Raise IntegrityError, db))
  ∨ (¬ has_tables db
     ∧ set_rule_previous_run f outs db = (Raise OperationalError, db)).
Proof.
  destruct (decide (has_tables db)) as [Hht|Hnt].
  - destruct (decide (NoDup outs.*1)) as [Hnd|Hnd].
    + left. split_and!; [done|done|].
      destruct Hht as [[rows Hrr] [tos Hto]].
      destruct (set_rule_previous_run_ok f outs db rows tos Hrr Hto Hnd)
        as (new & Hcall & _). eauto.
    + right. left. split_and!; [done|done|].
      by apply set_rule_previous_run_duplicate.
  - right. right. split; [done|].
    by apply set_rule_previous_run_no_tables.
Qed.

(** * The further properties at concrete stores *)

Lemma init_or_reset_db_returns_ready_witness :
  1%nat ∈ open_cons (init_or_reset_db no_faults no_file).2
  ∧ ∃ db, file (init_or_reset_db no_faults no_file).2 = Some (Database db)
          ∧ marker_value db = Ok (Some DB_VERSION)
          ∧ (file no_file = Some (Database db) ∨ db = fresh_database).
Proof.
  apply (init_or_reset_db_returns_ready no_faults no_file _ 1%nat).
  reflexivity.
Defined.


Lemma recorded_run_survives_reopen_witness :
  ∃ r wa wb,
    connect no_faults
      (λ c, DB_set_rule_previous_run c [x01] [("//a:build"%string, [xaa])])
      no_file
    = (Ok r, wa)
    ∧ connect no_faults (λ c, DB_fetch_rule_previous_run c [x01]) wa
      = (Ok (Some r), wb).
Proof.
  apply (recorded_run_survives_reopen [x01] [("//a:build"%string, [xaa])]
           no_file (init_or_reset_db no_faults no_file).2 1%nat
           fresh_database).
  - reflexivity.
  - reflexivity.
  - split; by eexists.
  - simpl. apply (bool_decide_unpack _). vm_compute. exact I.
Defined.

Lemma nothing_survives_reset_witness :
  (∀ f, ∃ wa,
     connect no_faults (λ c, DB_fetch_rule_previous_run c f)
       (file_with (Database database_of_version_2))
     = (Ok None, wa))
  ∧ (∀ r t, ∃ wa,
       connect no_faults (λ c, DB_fetch_target_output_fingerprint c r t)
         (file_with (Database database_of_version_2))
       = (Ok None, wa)).
Proof.
  apply (nothing_survives_reset (file_with (Database database_of_version_2))).
  exists database_of_version_2. split; [reflexivity|].
  right. exists 2. split; [reflexivity|]. discriminate.
Defined.

Lemma compatible_marker_without_tables_witness :
  ∃ wa,
    connect no_faults
      (λ c, DB_set_rule_previous_run c [x01] [("//a:build"%string, [xaa])])
      (file_with (Database database_with_marker_only))
    = (Raise OperationalError, wa)
    ∧ file wa = file (file_with (Database database_with_marker_only)).
Proof.
  apply (compatible_marker_without_tables [x01]
           [("//a:build"%string, [xaa])]
           (file_with (Database database_with_marker_only))
           database_with_marker_only).
  - reflexivity.
  - reflexivity.
  - intros [[rows Hrows] _]. discriminate.
Defined.

Lemma replay_keeps_schema_constraints_witness :
  schema_constraints
    (replay [([x01], [("//a:build"%string, [xaa])]);
             ([x02], [("//b:build"%string, [xbb]);
                      ("//b:build"%string, [xcc])]);
             ([x01], [("//a:test"%string, [xdd])])] fresh_database).
Proof.
  apply (replay_keeps_schema_constraints
           [([x01], [("//a:build"%string, [xaa])]);
            ([x02], [("//b:build"%string, [xbb]);
                     ("//b:build"%string, [xcc])]);
            ([x01], [("//a:test"%string, [xdd])])] fresh_database).
  exists [], []. split_and!; try reflexivity; try apply NoDup_nil_2.
  intros row Hrow. by apply elem_of_nil in Hrow.
Defined.

Lemma run_id_is_stable_witness :
  fetch_rule_previous_run [x01]
    (replay [([x02], [("//b:build"%string, [xbb])])]
       (set_rule_previous_run [x01] [("//a:build"%string, [xaa])]
          fresh_database).2)
  = Ok (Some 1)
  ∧ (set_rule_previous_run [x01] [("//a:test"%string, [xcc])]
       (replay [([x02], [("//b:build"%string, [xbb])])]
          (set_rule_previous_run [x01] [("//a:build"%string, [xaa])]
             fresh_database).2)).1
    = Ok 1.
Proof.
  apply (run_id_is_stable [x01] [("//a:build"%string, [xaa])]
           [("//a:test"%string, [xcc])]
           [([x02], [("//b:build"%string, [xbb])])] fresh_database).
  - reflexivity.
  - simpl. apply (bool_decide_unpack _). vm_compute. exact I.
Defined.

Lemma outputs_survive_other_calls_witness :
  fetch_target_output_fingerprint 1 "//a:build"
    (replay [([x02], [("//a:build"%string, [xbb])]);
             ([x01], [("//a:build"%string, [xcc]);
                      ("//a:build"%string, [xdd])])]
       (set_rule_previous_run [x01] [("//a:build"%string, [xaa])]
          fresh_database).2)
  = Ok (output_of "//a:build" [("//a:build"%string, [xaa])]).
Proof.
  apply (outputs_survive_other_calls [x01] [("//a:build"%string, [xaa])]
           [([x02], [("//a:build"%string, [xbb])]);
            ([x01], [("//a:build"%string, [xcc]);
                     ("//a:build"%string, [xdd])])]
           fresh_database _ 1 "//a:build").
  - intros rows Hrows. injection Hrows as <-. simpl. constructor.
  - reflexivity.
  - intros c [->|[->|[]%elem_of_nil]%elem_of_cons]%elem_of_cons; simpl.
    + left. discriminate.
    + right. intros Hnd. apply NoDup_cons in Hnd as [Hin _]. apply Hin. left.
Defined.


Lemma lookups_find_the_rows_witness :
  (∀ f r,
     fetch_rule_previous_run f database_of_version_2 = Ok (Some r)
     ↔ {| rr_id := r; rr_fingerprint := f |}
       ∈ [{| rr_id := 1; rr_fingerprint := [x01] |}])
  ∧ (∀ r t fp,
       fetch_target_output_fingerprint r t database_of_version_2
       = Ok (Some fp)
       ↔ ∃ i, {| to_id := i; to_run := r; to_target := t;
                 to_fingerprint := fp |} ∈ []).
Proof.
  apply (lookups_find_the_rows database_of_version_2
           [{| rr_id := 1; rr_fingerprint := [x01] |}] []).
  - reflexivity.
  - reflexivity.
  - simpl. apply (bool_decide_unpack _). vm_compute. exact I.
  - simpl. apply NoDup_nil_2.
Defined.
